(** * StringsWidget: the strings table of the disassembler GUI

    A shallow embedding of [src/widgets/StringsWidget.cpp]: the list model
    [StringsModel] over the widget's [QList<StringDescription>], the
    [StringsSortFilterProxyModel] that filters and sorts it, and the two
    slots [refreshStrings] / [stringSearchFinished] that run the background
    [StringsTask] and install its result. *)

From Stdlib Require Import ZArith Lia Bool List Ascii String.
From Stdlib Require Import Sorting.Permutation Sorting.Sorted.
From stdpp Require Import base list.
Import ListNotations.

Local Open Scope Z_scope.

(** ** Qt values *)

(** [QString] is read as the sequence of its code units, here the code
    units below 256, so that string literals can be written as such. *)
Definition QString := string.
Bind Scope string_scope with QString.

(** [operator<(const QString &, const QString &)]: lexicographic on the
    code units, case sensitive. *)
Definition QString_lt (s1 s2 : QString) : bool := String.ltb s1 s2.

(** A text as its UTF-16 code units, for the texts that leave the code
    units below 256: the upper-case form of a [QString]. *)
Definition UString := list N.

(** The code units of a [QString]. *)
Definition units (s : QString) : UString :=
  map N_of_ascii (list_ascii_of_string s).

(** [operator<] on texts given by their code units. *)
Fixpoint UString_lt (s1 s2 : UString) : bool :=
  match s1, s2 with
  | _, [] => false
  | [], _ :: _ => true
  | a :: s1', b :: s2' =>
      if (a <? b)%N then true else if (b <? a)%N then false else UString_lt s1' s2'
  end.

(** The upper-case and the lower-case letters among the code units below
    256: A-Z and a-z, and the accented letters 192-222 and 224-254
    without the signs 215 and 247. *)
Definition is_upper (n : N) : bool :=
  (((65 <=? n) && (n <=? 90)) || ((192 <=? n) && (n <=? 214))
   || ((216 <=? n) && (n <=? 222)))%N.

Definition is_lower (n : N) : bool :=
  (((97 <=? n) && (n <=? 122)) || ((224 <=? n) && (n <=? 246))
   || ((248 <=? n) && (n <=? 254)))%N.

(** [QChar::toLower]: an upper-case letter goes to its lower-case form,
    32 code units up; every other code unit below 256 is unchanged. *)
Definition QChar_toLower (c : ascii) : ascii :=
  let n := N_of_ascii c in
  if is_upper n then ascii_of_N (n + 32) else c.

(** The upper-case form of one character, as [QString::toUpper] gives it:
    a lower-case letter goes 32 code units down; the micro sign 181 goes
    to the Greek capital mu, the sharp s 223 to the two letters SS, and
    the y with diaeresis 255 to its capital 376. *)
Definition upper_units (c : ascii) : UString :=
  let n := N_of_ascii c in
  if is_lower n then [n - 32]%N
  else if (n =? 181)%N then [924%N]
  else if (n =? 223)%N then [83%N; 83%N]
  else if (n =? 255)%N then [376%N]
  else [n].

(** [QString::toUpper]. *)
Definition toUpper (s : QString) : UString :=
  flat_map upper_units (list_ascii_of_string s).

Inductive CaseSensitivity := CaseInsensitive | CaseSensitive.

Inductive SortOrder := AscendingOrder | DescendingOrder.

(** [Qt::DisplayRole] and [Qt::UserRole]. *)
Definition DisplayRole : Z := 0.
Definition UserRole : Z := 256.

(** ** StringDescription *)

(** Modelled from the spec: the struct is declared in a header that is not
    part of the sources.  The spec gives an entry an unsigned address, a
    text, a kind, a length and a size; the field names are the ones
    [StringsModel::data] and [lessThan] read.  The numbers are only read
    and compared, never computed with, so no wrap-around arises. *)
Record StringDescription := mkStringDescription {
  vaddr : Z;
  string : QString;
  type : QString;
  length : Z;
  size : Z
}.

(** A default-constructed [StringDescription], which is what
    [QVariant::value<StringDescription>()] yields on a variant that does
    not hold one. *)
Definition StringDescription_default : StringDescription :=
  mkStringDescription 0 EmptyString EmptyString 0 0.

(** [QVariant], restricted to the payloads [StringsModel::data] builds. *)
Inductive QVariant :=
| Invalid
| VString (s : UString)
| VUInt (n : Z)
| VStringDescription (d : StringDescription).

Definition value_StringDescription (v : QVariant) : StringDescription :=
  match v with
  | VStringDescription d => d
  | _ => StringDescription_default
  end.

(** Modelled from the spec: the macro [RAddressString] comes from a header
    that is not part of the sources; the spec treats the rendering of the
    address as opaque payload.  It prints the address in hexadecimal,
    zero-padded to eight digits after the prefix 0x. *)
Definition hex_digit (d : Z) : ascii :=
  if d <? 10 then ascii_of_N (Z.to_N (48 + d)) else ascii_of_N (Z.to_N (87 + d)).

Fixpoint hex_digits (fuel : nat) (n : Z) (acc : QString) : QString :=
  match fuel with
  | O => acc
  | S fuel' =>
      let acc' := String (hex_digit (n mod 16)) acc in
      if n / 16 =? 0 then acc' else hex_digits fuel' (n / 16) acc'
  end.

Fixpoint pad_left (k : nat) (s : QString) : QString :=
  match k with
  | O => s
  | S k' => String "0"%char (pad_left k' s)
  end.

Definition RAddressString (a : Z) : QString :=
  let h := hex_digits 16 a EmptyString in
  String "0"%char (String "x"%char (pad_left (8 - String.length h) h)).

(** ** QList and QModelIndex *)

(** The outcome of an operation that indexes the entry sequence:
    [QList::at] outside [0, size) leaves the contract of the container
    (the "index out of range" assertion of a debug build). *)
Inductive access (A : Type) :=
| Returned (a : A)
| IndexOutOfRange.
Arguments Returned {A} a.
Arguments IndexOutOfRange {A}.

Definition QList := list.

Definition count {A} (l : QList A) : Z := Z.of_nat (List.length l).

Definition at_ {A} (l : QList A) (i : Z) : access A :=
  if i <? 0 then IndexOutOfRange
  else match l !! Z.to_nat i with
       | Some x => Returned x
       | None => IndexOutOfRange
       end.

(** A [QModelIndex]: row, column, and whether it belongs to a model.  The
    default-constructed index has row and column -1 and no model. *)
Record QModelIndex := mkIndex {
  row : Z;
  column : Z;
  has_model : bool
}.

Definition QModelIndex_invalid : QModelIndex := mkIndex (-1) (-1) false.

Definition isValid (i : QModelIndex) : bool :=
  (0 <=? row i) && (0 <=? column i) && has_model i.

(** ** StringsModel *)

Module StringsModel.

(** Modelled from the spec: [enum Columns] and [StringDescriptionRole] are
    declared in the widget's header, which is not part of the sources.
    The spec lists the fields as address, text, type, length, size; the
    values are the enumerators in that order, which is the order in which
    [headerData] lists them; the slots of the widget address the string
    column as column 1 and the address column as column 0, and size five
    columns.  The payload role is the first user role. *)
Definition OFFSET : Z := 0.
Definition STRING : Z := 1.
Definition TYPE : Z := 2.
Definition LENGTH : Z := 3.
Definition SIZE : Z := 4.
Definition COUNT : Z := 5.

Definition StringDescriptionRole : Z := UserRole.

Definition rowCount (strings : QList StringDescription) : Z := count strings.

Definition columnCount : Z := COUNT.

(** [StringsModel::data]. *)
Definition data (strings : QList StringDescription)
    (index : QModelIndex) (role : Z) : access QVariant :=
  if row index >=? count strings then Returned Invalid
  else
    match at_ strings (row index) with
    | IndexOutOfRange => IndexOutOfRange
    | Returned str =>
        if role =? DisplayRole then
          if column index =? OFFSET then
            Returned (VString (units (RAddressString (vaddr str))))
          else if column index =? STRING then Returned (VString (units (string str)))
          else if column index =? TYPE then Returned (VString (toUpper (type str)))
          else if column index =? LENGTH then Returned (VUInt (length str))
          else if column index =? SIZE then Returned (VUInt (size str))
          else Returned Invalid
        else if role =? StringDescriptionRole then Returned (VStringDescription str)
        else Returned Invalid
    end.

(** [QAbstractListModel::index]: a valid index only for a cell the model
    has. *)
Definition index (strings : QList StringDescription) (r c : Z) : QModelIndex :=
  if (0 <=? r) && (r <? rowCount strings) && (0 <=? c) && (c <? columnCount)
  then mkIndex r c true
  else QModelIndex_invalid.

End StringsModel.

(** [QModelIndex::data]: an index without a model yields an invalid variant
    without asking the model. *)
Definition QModelIndex_data (strings : QList StringDescription)
    (i : QModelIndex) (role : Z) : access QVariant :=
  if has_model i then StringsModel.data strings i role else Returned Invalid.

(** The payload of a lookup that returned; a lookup whose row is not
    negative always returns (lemma [data_nonneg_returns] below). *)
Definition returned {A} (d : A) (r : access A) : A :=
  match r with
  | Returned a => a
  | IndexOutOfRange => d
  end.

(** [index.data(StringsModel::StringDescriptionRole).value<StringDescription>()]:
    the payload an index yields through [QModelIndex::data]. *)
Definition payload (strings : QList StringDescription) (i : QModelIndex) : StringDescription :=
  value_StringDescription
    (returned Invalid (QModelIndex_data strings i StringsModel.StringDescriptionRole)).

(** ** The filter: QRegExp in wildcard syntax *)

(** The widget only ever sets its filter through [setFilterWildcard], so a
    [QRegExp] is read as a compiled wildcard pattern: a sequence of
    literal characters, [?] (any one character), [*] (any run of
    characters) and bracket expressions (one character of a set),
    together with its case sensitivity.  A set is given by the test of
    which characters it accepts in this pattern.  A pattern text that
    does not compile, such as one with an unterminated bracket, matches
    no text, which is what a set that accepts no character matches. *)
Inductive wildcard :=
| WChar (c : ascii)
| WAnyChar
| WAnySeq
| WSet (accepts : ascii -> bool).

Record QRegExp := mkRegExp {
  pattern : list wildcard;
  caseSensitivity : CaseSensitivity
}.

(** Equality of two characters under a case sensitivity. *)
Definition QChar_eq (cs : CaseSensitivity) (a b : ascii) : bool :=
  match cs with
  | CaseSensitive => Ascii.eqb a b
  | CaseInsensitive => Ascii.eqb (QChar_toLower a) (QChar_toLower b)
  end.

(** Does the pattern match a prefix of the text? *)
Fixpoint match_here (cs : CaseSensitivity) (p : list wildcard) : list ascii -> bool :=
  match p with
  | [] => fun _ => true
  | WChar c :: p' => fun s =>
      match s with
      | a :: s' => QChar_eq cs c a && match_here cs p' s'
      | [] => false
      end
  | WAnyChar :: p' => fun s =>
      match s with
      | _ :: s' => match_here cs p' s'
      | [] => false
      end
  | WSet accepts :: p' => fun s =>
      match s with
      | a :: s' => accepts a && match_here cs p' s'
      | [] => false
      end
  | WAnySeq :: p' =>
      fix star (s : list ascii) : bool :=
        match_here cs p' s ||
        match s with
        | _ :: s' => star s'
        | [] => false
        end
  end.

(** [QRegExp::indexIn] finds a match starting anywhere in the text. *)
Fixpoint match_anywhere (cs : CaseSensitivity) (p : list wildcard) (s : list ascii) : bool :=
  match_here cs p s ||
  match s with
  | _ :: s' => match_anywhere cs p s'
  | [] => false
  end.

(** [QString::contains(const QRegExp &)]. *)
Definition contains (s : QString) (rx : QRegExp) : bool :=
  match_anywhere (caseSensitivity rx) (pattern rx) (list_ascii_of_string s).

(** The wording of the specification, to compare [contains] with.  Two
    characters are the same letter when they are equal, or when one is an
    upper-case letter and the other its lower-case form, 32 code units
    above it. *)
Definition upper_case_unit (n : N) : Prop :=
  (65 <= n <= 90 \/ 192 <= n <= 214 \/ 216 <= n <= 222)%N.

Definition same_letter (a b : ascii) : Prop :=
  a = b
  \/ (upper_case_unit (N_of_ascii a) /\ N_of_ascii b = (N_of_ascii a + 32)%N)
  \/ (upper_case_unit (N_of_ascii b) /\ N_of_ascii a = (N_of_ascii b + 32)%N).

(** A literal character of the pattern matches a character of the text. *)
Definition char_matches (cs : CaseSensitivity) (c a : ascii) : Prop :=
  match cs with
  | CaseSensitive => c = a
  | CaseInsensitive => same_letter c a
  end.

(** The pattern matches a text exactly. *)
Inductive wmatch (cs : CaseSensitivity) : list wildcard -> list ascii -> Prop :=
| wmatch_nil : wmatch cs [] []
| wmatch_char c a p s :
    char_matches cs c a -> wmatch cs p s -> wmatch cs (WChar c :: p) (a :: s)
| wmatch_any a p s :
    wmatch cs p s -> wmatch cs (WAnyChar :: p) (a :: s)
| wmatch_seq u p s :
    wmatch cs p s -> wmatch cs (WAnySeq :: p) (u ++ s)
| wmatch_set accepts a p s :
    accepts a = true -> wmatch cs p s -> wmatch cs (WSet accepts :: p) (a :: s).

(** A text matches as a substring test when some contiguous part of it
    matches the pattern. *)
Definition matches_substring (cs : CaseSensitivity) (p : list wildcard) (s : QString) : Prop :=
  exists pre mid post,
    list_ascii_of_string s = pre ++ mid ++ post /\ wmatch cs p mid.

(** ** StringsSortFilterProxyModel *)

Module StringsSortFilterProxyModel.

(** [filterAcceptsRow], with the proxy's [filterRegExp()] passed in. *)
Definition filterAcceptsRow (strings : QList StringDescription)
    (filterRegExp : QRegExp) (r : Z) : bool :=
  let index := StringsModel.index strings r 0 in
  let str := payload strings index in
  contains (string str) filterRegExp.

(** [lessThan]. *)
Definition lessThan (strings : QList StringDescription)
    (left right : QModelIndex) : bool :=
  let left_str := payload strings left in
  let right_str := payload strings right in
  if column left =? StringsModel.OFFSET then vaddr left_str <? vaddr right_str
  else if column left =? StringsModel.STRING then QString_lt (string left_str) (string right_str)
  else if column left =? StringsModel.TYPE then QString_lt (type left_str) (type right_str)
  else if column left =? StringsModel.SIZE then size left_str <? size right_str
  else if column left =? StringsModel.LENGTH then length left_str <? length right_str
  else vaddr left_str <? vaddr right_str.

End StringsSortFilterProxyModel.

(** The comparison [lessThan] makes once both payloads are fetched. *)
Definition entry_lessThan (col : Z) (a b : StringDescription) : bool :=
  if col =? StringsModel.OFFSET then vaddr a <? vaddr b
  else if col =? StringsModel.STRING then QString_lt (string a) (string b)
  else if col =? StringsModel.TYPE then QString_lt (type a) (type b)
  else if col =? StringsModel.SIZE then size a <? size b
  else if col =? StringsModel.LENGTH then length a <? length b
  else vaddr a <? vaddr b.

(** ** Sorting the proxy's rows

    [QSortFilterProxyModel] orders its source rows with [std::stable_sort]
    and the comparator built from [lessThan].  For a comparator that is a
    strict weak ordering the outcome of a stable sort is determined by the
    input, so it is modelled by the insertion sort below. *)
Section StableSort.
Context {A : Type}.
Variable lt : A -> A -> bool.

Fixpoint insert_sorted (x : A) (l : list A) : list A :=
  match l with
  | [] => [x]
  | y :: l' => if lt y x then y :: insert_sorted x l' else x :: y :: l'
  end.

Definition stable_sort (l : list A) : list A :=
  foldr insert_sorted [] l.

(** Two elements are tied when neither is less than the other. *)
Definition tied (x y : A) : bool := negb (lt x y) && negb (lt y x).

(** No element is placed before a smaller one. *)
Definition in_order (a b : A) : Prop := lt b a = false.
End StableSort.

(** The rows [0 .. n-1] of the source model. *)
Definition source_range (n : nat) : list Z := map Z.of_nat (seq 0 n).

Definition less_int (a b : Z) : bool := a <? b.

Module Proxy.

Import StringsSortFilterProxyModel.

(** The comparator [sort_source_rows] hands to [std::stable_sort]:
    [lessThan] on the two source indexes in the sort column, with the
    arguments swapped for a descending sort. *)
Definition row_lessThan (strings : QList StringDescription)
    (sort_column : Z) (sort_order : SortOrder) (r1 r2 : Z) : bool :=
  let i1 := StringsModel.index strings r1 sort_column in
  let i2 := StringsModel.index strings r2 sort_column in
  match sort_order with
  | AscendingOrder => lessThan strings i1 i2
  | DescendingOrder => lessThan strings i2 i1
  end.

(** The active comparator: without a sort column of the source model the
    rows are put back in source order. *)
Definition comparator (strings : QList StringDescription)
    (sort_column : Z) (sort_order : SortOrder) : Z -> Z -> bool :=
  if (0 <=? sort_column) && (sort_column <? StringsModel.columnCount)
  then row_lessThan strings sort_column sort_order
  else less_int.

(** [sort_source_rows]. *)
Definition sort_source_rows (strings : QList StringDescription)
    (sort_column : Z) (sort_order : SortOrder) (rows : list Z) : list Z :=
  stable_sort (comparator strings sort_column sort_order) rows.

(** [create_mapping]: the accepted source rows, in source order, then
    sorted. *)
Definition create_mapping (strings : QList StringDescription)
    (filterRegExp : QRegExp) (sort_column : Z) (sort_order : SortOrder) : list Z :=
  sort_source_rows strings sort_column sort_order
    (List.filter (filterAcceptsRow strings filterRegExp)
       (source_range (List.length strings))).

End Proxy.

(** ** The widget *)

Definition TaskId := nat.

(** The state of a [StringsWidget]: the entry sequence [strings] that the
    [StringsModel] points to, the [task] handle (null when no task is
    tracked), and the proxy's filter, sort settings and row mapping.
    [itemsNumber] is the count last shown in the footer and [resets]
    counts the model resets made so far. *)
Record StringsWidget := mkWidget {
  strings : QList StringDescription;
  task : option TaskId;
  filterRegExp : QRegExp;
  sort_column : Z;
  sort_order : SortOrder;
  source_rows : list Z;
  itemsNumber : Z;
  resets : nat
}.

(** The widget as its constructor leaves it: no entries, a
    case-insensitive empty filter, sorted by address ascending. *)
Definition StringsWidget_new : StringsWidget :=
  mkWidget [] None (mkRegExp [] CaseInsensitive)
    StringsModel.OFFSET AscendingOrder [] 0 0.

(** [proxy_model->rowCount()]. *)
Definition proxy_rowCount (w : StringsWidget) : Z := count (source_rows w).

(** The proxy's [index] and [mapToSource]. *)
Definition proxy_index (w : StringsWidget) (r c : Z) : QModelIndex :=
  if (0 <=? r) && (r <? proxy_rowCount w) && (0 <=? c) && (c <? StringsModel.columnCount)
  then mkIndex r c true
  else QModelIndex_invalid.

Definition mapToSource (w : StringsWidget) (i : QModelIndex) : QModelIndex :=
  if isValid i then
    match at_ (source_rows w) (row i) with
    | Returned r => StringsModel.index (strings w) r (column i)
    | IndexOutOfRange => QModelIndex_invalid
    end
  else QModelIndex_invalid.

(** [QSortFilterProxyModel::data]. *)
Definition proxy_data (w : StringsWidget) (i : QModelIndex) (role : Z) : access QVariant :=
  let source_index := mapToSource w i in
  if isValid i && negb (isValid source_index) then Returned Invalid
  else StringsModel.data (strings w) source_index role.

(** What a client of the view reads for row [i]: the payload of the proxy
    index of that row, as [on_stringsTreeView_doubleClicked] and
    [on_actionX_refs_triggered] do.  The call is passed the widget and
    hands it back, so that two calls can be run one after the other. *)
Definition row_at (i : Z) (w : StringsWidget) : access QVariant * StringsWidget :=
  let index := proxy_index w i 0 in
  (if isValid index then proxy_data w index StringsModel.StringDescriptionRole
   else Returned Invalid, w).

Definition row_count (w : StringsWidget) : Z * StringsWidget :=
  (proxy_rowCount w, w).

(** The slot behind the quick filter: [setFilterWildcard] replaces the
    pattern of the filter, keeping its case sensitivity, and the proxy
    refilters; then the footer is updated.  The proxy updates its mapping
    in place; the outcome is read here as the mapping built anew, which
    lists the same rows in an order the comparator agrees with.  Rows
    that the comparator leaves unordered may stand in another order than
    the proxy leaves them in; nothing below is stated of their order
    after a filter change. *)
Definition setFilterWildcard (p : list wildcard) (w : StringsWidget) : StringsWidget :=
  let rx := mkRegExp p (caseSensitivity (filterRegExp w)) in
  let rows := Proxy.create_mapping (strings w) rx (sort_column w) (sort_order w) in
  mkWidget (strings w) (task w) rx (sort_column w) (sort_order w) rows
    (count rows) (resets w).

(** A click on a column header: [QSortFilterProxyModel::sort] re-sorts the
    rows it currently maps. *)
Definition sortByColumn (c : Z) (o : SortOrder) (w : StringsWidget) : StringsWidget :=
  mkWidget (strings w) (task w) (filterRegExp w) c o
    (Proxy.sort_source_rows (strings w) c o (source_rows w))
    (itemsNumber w) (resets w).

(** [StringsWidget::stringSearchFinished]; the resizing of the columns of
    the tree view is left out. *)
Definition stringSearchFinished (new_strings : QList StringDescription)
    (w : StringsWidget) : StringsWidget :=
  (* model->beginResetModel(); this->strings = strings; model->endResetModel(); *)
  let rows := Proxy.create_mapping new_strings (filterRegExp w)
                (sort_column w) (sort_order w) in
  (* tree->showItemsNumber(proxy_model->rowCount()); task = nullptr; *)
  mkWidget new_strings None (filterRegExp w) (sort_column w) (sort_order w)
    rows (count rows) (S (resets w)).

(** ** The widget and its background tasks *)

(** Modelled from the spec: the task classes ([StringsTask], the task
    manager, [wait]) and the delivery of signals across threads are not
    part of the sources.  As the spec words the producer contract, a task
    runs independently of the caller, and on completion delivers one
    complete dataset to the widget's completion handler; waiting for a
    task returns once it has reached a terminal state.  A [World] is the
    widget together with the tasks that are live ([running], each with the
    dataset it is going to deliver), the results already emitted and
    waiting for the widget's thread to handle them ([posted], oldest
    first), and the next fresh task handle. *)
Record World := mkWorld {
  widget : StringsWidget;
  running : list (TaskId * QList StringDescription);
  posted : list (TaskId * QList StringDescription);
  next_task : TaskId
}.

Definition World_new : World := mkWorld StringsWidget_new [] [] 0%nat.

Definition is_task (t : TaskId) (p : TaskId * QList StringDescription) : bool :=
  Nat.eqb (fst p) t.

(** Modelled from the spec: task [t] completes; it leaves [running] and
    its result joins [posted], to be handled by the widget's thread. *)
Definition finish (t : TaskId) (W : World) : World :=
  match List.find (is_task t) (running W) with
  | Some r =>
      mkWorld (widget W)
        (List.filter (fun p => negb (is_task t p)) (running W))
        (posted W ++ [r]) (next_task W)
  | None => W
  end.

(** Modelled from the spec: the producer of task [t] cannot complete; the
    task ends without a result. *)
Definition abort (t : TaskId) (W : World) : World :=
  mkWorld (widget W)
    (List.filter (fun p => negb (is_task t p)) (running W))
    (posted W) (next_task W).

(** Modelled from the spec: [task->wait()] blocks until task [t] has
    reached a terminal state, and returns at once when it already has. *)
Definition wait (t : TaskId) (W : World) : World := finish t W.

Definition set_task (o : option TaskId) (w : StringsWidget) : StringsWidget :=
  mkWidget (strings w) o (filterRegExp w) (sort_column w) (sort_order w)
    (source_rows w) (itemsNumber w) (resets w).

(** [StringsWidget::refreshStrings]; [produce] is the dataset the new task
    is going to find. *)
Definition refreshStrings (produce : QList StringDescription) (W : World) : World :=
  (* if (task) task->wait(); *)
  let W1 := match task (widget W) with
            | Some t => wait t W
            | None => W
            end in
  (* task = new StringsTask(); connect(...); start(task); *)
  let t := next_task W1 in
  mkWorld (set_task (Some t) (widget W1))
    (running W1 ++ [(t, produce)]) (posted W1) (S t).

(** The widget's thread handles the oldest posted result: the slot
    [stringSearchFinished], connected in [refreshStrings], runs on it. *)
Definition deliver (W : World) : World :=
  match posted W with
  | [] => W
  | (_, result) :: rest =>
      mkWorld (stringSearchFinished result (widget W)) (running W) rest (next_task W)
  end.

Definition on_widget (f : StringsWidget -> StringsWidget) (W : World) : World :=
  mkWorld (f (widget W)) (running W) (posted W) (next_task W).

(** What can happen to the widget, one event at a time. *)
Inductive event :=
| RefreshAll (produce : QList StringDescription)
| TaskFinished (t : TaskId)
| TaskAborted (t : TaskId)
| Deliver
| FilterTextChanged (p : list wildcard)
| HeaderClicked (c : Z) (o : SortOrder).

Definition step (W : World) (e : event) : World :=
  match e with
  | RefreshAll produce => refreshStrings produce W
  | TaskFinished t => finish t W
  | TaskAborted t => abort t W
  | Deliver => deliver W
  | FilterTextChanged p => on_widget (setFilterWildcard p) W
  | HeaderClicked c o => on_widget (sortByColumn c o) W
  end.

Definition run (es : list event) (W : World) : World := fold_left step es W.

(** The ids of the live tasks. *)
Definition live (W : World) : list TaskId := map fst (running W).

(** The operations on the view and its store that the spec names. *)
Inductive view_op :=
| SetFilter (p : list wildcard)
| SetSort (c : Z) (o : SortOrder)
| Replace (new_strings : QList StringDescription).

Definition apply_op (w : StringsWidget) (o : view_op) : StringsWidget :=
  match o with
  | SetFilter p => setFilterWildcard p w
  | SetSort c o => sortByColumn c o w
  | Replace new_strings => stringSearchFinished new_strings w
  end.

Definition apply_ops (os : list view_op) (w : StringsWidget) : StringsWidget :=
  fold_left apply_op os w.

(** The entry of a source row; the default entry outside the sequence. *)
Definition entry_of (strings : QList StringDescription) (r : Z) : StringDescription :=
  payload strings (StringsModel.index strings r 0).

(** The comparator of the sort read on the entries of the two rows. *)
Definition entry_row_lessThan (strings : QList StringDescription)
    (col : Z) (o : SortOrder) (r1 r2 : Z) : bool :=
  match o with
  | AscendingOrder => entry_lessThan col (entry_of strings r1) (entry_of strings r2)
  | DescendingOrder => entry_lessThan col (entry_of strings r2) (entry_of strings r1)
  end.

Definition entry_comparator (strings : QList StringDescription)
    (col : Z) (o : SortOrder) : Z -> Z -> bool :=
  if (0 <=? col) && (col <? StringsModel.columnCount)
  then entry_row_lessThan strings col o
  else less_int.

(** The source rows the filter accepts, in source order. *)
Definition accepted_rows (strings : QList StringDescription) (rx : QRegExp) : list Z :=
  List.filter (StringsSortFilterProxyModel.filterAcceptsRow strings rx)
    (source_range (List.length strings)).

(** The invariant of the proxy's mapping: it lists exactly the accepted
    source rows, in an order the active comparator agrees with, and the
    filter is case insensitive. *)
Record widget_inv (w : StringsWidget) : Prop := {
  inv_rows : Permutation (source_rows w) (accepted_rows (strings w) (filterRegExp w));
  inv_sorted :
    Sorted (in_order (entry_comparator (strings w) (sort_column w) (sort_order w)))
      (source_rows w);
  inv_case : caseSensitivity (filterRegExp w) = CaseInsensitive
}.

(** The widget after its construction and a sequence of operations. *)
Definition view_after (os : list view_op) : StringsWidget :=
  apply_ops os StringsWidget_new.

(** The five columns [data] and [lessThan] know. *)
Definition known_column (c : Z) : bool :=
  (c =? StringsModel.OFFSET) || (c =? StringsModel.STRING) || (c =? StringsModel.TYPE)
  || (c =? StringsModel.LENGTH) || (c =? StringsModel.SIZE).

(** Sample entries for the worked examples. *)
Definition entry_a20 : StringDescription := mkStringDescription 32 "a" "ascii" 1 1.
Definition entry_a10 : StringDescription := mkStringDescription 16 "a" "wide" 1 2.
Definition entry_B30 : StringDescription := mkStringDescription 48 "B" "Utf8" 1 1.

(** [x] stands somewhere before [y] in [l]. *)
Definition before {A} (x y : A) (l : list A) : Prop :=
  exists l1 l2 l3, l = l1 ++ x :: l2 ++ y :: l3.

(** The last operation of a sequence was a replace. *)
Definition ends_with_replace (os : list view_op) : Prop :=
  exists os' new_strings, os = os' ++ [Replace new_strings].

(** The entries of the scenario the specification works through. *)
Definition entry_abc : StringDescription := mkStringDescription 16 "abc" "ascii" 3 3.
Definition entry_xyz : StringDescription := mkStringDescription 32 "xyz" "ascii" 3 3.
Definition entry_abcx : StringDescription := mkStringDescription 48 "abcx" "ascii" 4 4.

(** Single flight: no task is live, or one is and the widget's handle
    holds it. *)
Definition single_flight (W : World) : Prop :=
  live W = [] \/ exists t, live W = [t] /\ task (widget W) = Some t.

(** No result is handled by the widget during the events [es]. *)
Definition no_delivery (es : list event) : bool :=
  forallb (fun e => match e with Deliver => false | _ => true end) es.

(** ** The rest of the model and the slots of the widget *)

Inductive Orientation := Horizontal | Vertical.

(** [tr]: with no translation installed the source text is returned. *)
Definition tr (s : QString) : QString := s.

(** [StringsModel::headerData]; the orientation is not looked at. *)
Definition headerData (section : Z) (orientation : Orientation) (role : Z) : QVariant :=
  if role =? DisplayRole then
    if section =? StringsModel.OFFSET then VString (units (tr "Address"))
    else if section =? StringsModel.STRING then VString (units (tr "String"))
    else if section =? StringsModel.TYPE then VString (units (tr "Type"))
    else if section =? StringsModel.LENGTH then VString (units (tr "Length"))
    else if section =? StringsModel.SIZE then VString (units (tr "Size"))
    else Invalid
  else Invalid.

(** [QString::number] in base ten. *)
Fixpoint dec_digits (fuel : nat) (n : Z) (acc : QString) : QString :=
  match fuel with
  | O => acc
  | S fuel' =>
      let acc' := String (ascii_of_N (Z.to_N (48 + n mod 10))) acc in
      if n / 10 =? 0 then acc' else dec_digits fuel' (n / 10) acc'
  end.

(** [QVariant::toString]: the text of a string, the digits of a number,
    and the empty string for an invalid variant or a payload. *)
Definition QVariant_toString (v : QVariant) : UString :=
  match v with
  | Invalid => []
  | VString s => s
  | VUInt n => units (dec_digits 20 n EmptyString)
  | VStringDescription _ => []
  end.

(** [QModelIndex::data] on an index of the proxy. *)
Definition proxy_QModelIndex_data (w : StringsWidget) (i : QModelIndex) (role : Z)
    : access QVariant :=
  if has_model i then proxy_data w i role else Returned Invalid.

(** The actions of the widget that can trigger [on_actionCopy]. *)
Inductive QAction :=
| actionCopy_String
| actionCopy_Address
| actionFilter
| actionX_refs.

(** [StringsWidget::on_actionCopy]: the result is the text set on the
    clipboard; [current_item] is the current index of the tree view. *)
Definition on_actionCopy (sender : QAction) (current_item : QModelIndex)
    (w : StringsWidget) : access UString :=
  let r := row current_item in
  let index := match sender with
               | actionCopy_String => proxy_index w r 1
               | actionCopy_Address => proxy_index w r 0
               | _ => QModelIndex_invalid
               end in
  match proxy_QModelIndex_data w index DisplayRole with
  | Returned v => Returned (QVariant_toString v)
  | IndexOutOfRange => IndexOutOfRange
  end.

(** [StringsWidget::on_stringsTreeView_doubleClicked]: the result is the
    address [Core()->seek] is called with, if it is called. *)
Definition on_stringsTreeView_doubleClicked (index : QModelIndex)
    (w : StringsWidget) : access (option Z) :=
  if negb (isValid index) then Returned None
  else
    match proxy_QModelIndex_data w index StringsModel.StringDescriptionRole with
    | Returned v => Returned (Some (vaddr (value_StringDescription v)))
    | IndexOutOfRange => IndexOutOfRange
    end.

(** [StringsWidget::on_actionX_refs_triggered]: the result is the
    arguments [fillRefsForAddress] is called with; [current] is the
    current index of the selection model. *)
Definition on_actionX_refs_triggered (current : QModelIndex)
    (w : StringsWidget) : access (Z * QString * bool) :=
  match proxy_QModelIndex_data w current StringsModel.StringDescriptionRole with
  | Returned v =>
      let str := value_StringDescription v in
      Returned (vaddr str, RAddressString (vaddr str), false)
  | IndexOutOfRange => IndexOutOfRange
  end.

(** The characters [t] occur in the text [s], letters compared without
    regard to case: some contiguous part of [s] is [t] letter by
    letter. *)
Definition occurs_ignoring_case (t : list ascii) (s : QString) : Prop :=
  exists pre mid post,
    list_ascii_of_string s = pre ++ mid ++ post
    /\ Forall2 same_letter t mid.

(** Two texts that differ at most in the case of their letters. *)
Definition same_text_ignoring_case (s t : QString) : Prop :=
  Forall2 same_letter (list_ascii_of_string s) (list_ascii_of_string t).

(** The pattern and the dataset the view holds after a sequence of
    operations: the ones of the last filter change and of the last
    replace, and the empty ones before the first. *)
Definition last_filter (os : list view_op) : list wildcard :=
  fold_left (fun p o => match o with SetFilter q => q | _ => p end) os [].

Definition last_dataset (os : list view_op) : QList StringDescription :=
  fold_left (fun d o => match o with Replace new_strings => new_strings | _ => d end) os [].

(** Two entries whose kinds are the texts a and B. *)
Definition entry_kind_a : StringDescription := mkStringDescription 16 "one" "a" 3 3.
Definition entry_kind_B : StringDescription := mkStringDescription 32 "two" "B" 3 3.

(** * Properties *)

(** ** Indexing the entry sequence *)

Lemma at_Returned {A} (l : QList A) (i : Z) (x : A) :
  at_ l i = Returned x <-> 0 <= i /\ l !! Z.to_nat i = Some x.
Proof.
  unfold at_. destruct (Z.ltb_spec i 0) as [Hneg|Hpos].
  - split; [discriminate | lia].
  - destruct (l !! Z.to_nat i) as [y|] eqn:E; split.
    + intros [= ->]. auto.
    + intros [_ [= ->]]. reflexivity.
    + discriminate.
    + intros [_ [=]].
Qed.

Lemma at_in_range {A} (l : QList A) (i : Z) :
  0 <= i < count l -> exists x, at_ l i = Returned x.
Proof.
  intros [H0 Hlt]. unfold count in Hlt.
  destruct (l !! Z.to_nat i) as [x|] eqn:E.
  - exists x. apply at_Returned. auto.
  - apply lookup_ge_None in E. lia.
Qed.

Lemma at_Returned_lt {A} (l : QList A) (i : Z) (x : A) :
  at_ l i = Returned x -> 0 <= i < count l.
Proof.
  intros H. apply at_Returned in H as [H0 Hl]. split; [assumption|].
  apply lookup_lt_Some in Hl. unfold count. lia.
Qed.

Lemma at_of_nat {A} (l : QList A) (n : nat) :
  at_ l (Z.of_nat n) = match l !! n with Some x => Returned x | None => IndexOutOfRange end.
Proof.
  unfold at_. destruct (Z.ltb_spec (Z.of_nat n) 0); [lia|].
  now rewrite Nat2Z.id.
Qed.

(** A lookup whose row is not negative returns a value: the guard on the
    row count keeps [at_] inside the sequence. *)
Lemma data_nonneg_returns strings i role :
  0 <= row i -> exists v, StringsModel.data strings i role = Returned v.
Proof.
  intros H0. unfold StringsModel.data.
  destruct (Z.geb_spec (row i) (count strings)) as [Hge|Hlt]; [eauto|].
  destruct (at_in_range strings (row i)) as [x ->]; [lia|].
  repeat match goal with |- context [if ?b then _ else _] => destruct b end; eauto.
Qed.

Lemma data_past_end strings i role :
  count strings <= row i -> StringsModel.data strings i role = Returned Invalid.
Proof.
  intros H. unfold StringsModel.data.
  destruct (Z.geb_spec (row i) (count strings)); [reflexivity | lia].
Qed.

Lemma data_payload strings i str :
  at_ strings (row i) = Returned str ->
  StringsModel.data strings i StringsModel.StringDescriptionRole
  = Returned (VStringDescription str).
Proof.
  intros H. pose proof (at_Returned_lt _ _ _ H) as Hr.
  unfold StringsModel.data.
  destruct (Z.geb_spec (row i) (count strings)); [lia|].
  rewrite H. reflexivity.
Qed.

Lemma index_in_range strings r c :
  0 <= r < count strings -> 0 <= c < StringsModel.COUNT ->
  StringsModel.index strings r c = mkIndex r c true.
Proof.
  intros Hr Hc. unfold StringsModel.index, StringsModel.rowCount, StringsModel.columnCount.
  destruct (Z.leb_spec 0 r); [|lia].
  destruct (Z.ltb_spec r (count strings)); [|lia].
  destruct (Z.leb_spec 0 c); [|lia].
  destruct (Z.ltb_spec c StringsModel.COUNT); [|lia].
  reflexivity.
Qed.

Lemma index_out_of_range strings r c :
  ~ (0 <= r < count strings) ->
  StringsModel.index strings r c = QModelIndex_invalid.
Proof.
  intros Hr. unfold StringsModel.index, StringsModel.rowCount.
  destruct (Z.leb_spec 0 r); [|reflexivity].
  destruct (Z.ltb_spec r (count strings)); [lia|reflexivity].
Qed.

Lemma entry_of_lookup strings (n : nat) e :
  strings !! n = Some e -> entry_of strings (Z.of_nat n) = e.
Proof.
  intros H. unfold entry_of, payload.
  assert (Hr : 0 <= Z.of_nat n < count strings).
  { apply lookup_lt_Some in H. unfold count. lia. }
  rewrite index_in_range by (assumption || (unfold StringsModel.COUNT; lia)).
  unfold QModelIndex_data, isValid. cbn [row column has_model].
  destruct (Z.leb_spec 0 (Z.of_nat n)); [|lia]. cbn.
  rewrite (data_payload _ _ e); [reflexivity|].
  cbn [row]. rewrite at_of_nat, H. reflexivity.
Qed.

Lemma entry_of_outside strings r :
  ~ (0 <= r < count strings) -> entry_of strings r = StringDescription_default.
Proof.
  intros H. unfold entry_of. rewrite index_out_of_range by assumption.
  reflexivity.
Qed.

Lemma lessThan_entry strings left right :
  StringsSortFilterProxyModel.lessThan strings left right
  = entry_lessThan (column left) (payload strings left) (payload strings right).
Proof. reflexivity. Qed.

Lemma payload_index strings r c :
  0 <= c < StringsModel.COUNT ->
  payload strings (StringsModel.index strings r c) = entry_of strings r.
Proof.
  intros Hc. unfold entry_of, payload.
  destruct (Z.leb_spec 0 r) as [H0|H0]; [destruct (Z.ltb_spec r (count strings)) as [H1|H1]|].
  - rewrite !index_in_range by (try assumption; try split; unfold StringsModel.COUNT; lia).
    unfold QModelIndex_data, isValid. cbn [row column has_model].
    destruct (Z.leb_spec 0 r); [|lia]. destruct (Z.leb_spec 0 c); [|lia]. cbn.
    destruct (at_in_range strings r) as [x Hx]; [lia|].
    rewrite !(data_payload _ _ x) by assumption. reflexivity.
  - rewrite !index_out_of_range by lia. reflexivity.
  - rewrite !index_out_of_range by lia. reflexivity.
Qed.

(** ** The filter predicate against its specification *)

Lemma is_upper_spec n : is_upper n = true <-> upper_case_unit n.
Proof.
  unfold is_upper, upper_case_unit.
  rewrite !orb_true_iff, !andb_true_iff, !N.leb_le. tauto.
Qed.

Lemma is_upper_false n : is_upper n = false <-> ~ upper_case_unit n.
Proof.
  rewrite <- is_upper_spec. destruct (is_upper n); split; congruence.
Qed.

Lemma N_of_ascii_inj a b : N_of_ascii a = N_of_ascii b -> a = b.
Proof.
  intros H. rewrite <- (ascii_N_embedding a), <- (ascii_N_embedding b). now rewrite H.
Qed.

Lemma N_of_toLower c :
  N_of_ascii (QChar_toLower c)
  = if is_upper (N_of_ascii c) then (N_of_ascii c + 32)%N else N_of_ascii c.
Proof.
  unfold QChar_toLower. destruct (is_upper (N_of_ascii c)) eqn:E; [|reflexivity].
  apply is_upper_spec in E. unfold upper_case_unit in E.
  apply N_ascii_embedding. lia.
Qed.

(** The comparison of two characters without regard to case is the
    relation of being the same letter. *)
Lemma QChar_eq_same_letter a b :
  QChar_eq CaseInsensitive a b = true <-> same_letter a b.
Proof.
  cbn. rewrite Ascii.eqb_eq. split.
  - intros H. apply (f_equal N_of_ascii) in H. rewrite !N_of_toLower in H.
    unfold same_letter. revert H.
    destruct (is_upper (N_of_ascii a)) eqn:Ea; destruct (is_upper (N_of_ascii b)) eqn:Eb;
      intros H.
    + left. apply N_of_ascii_inj. lia.
    + right. left. apply is_upper_spec in Ea. split; [exact Ea | lia].
    + right. right. apply is_upper_spec in Eb. split; [exact Eb | lia].
    + left. now apply N_of_ascii_inj.
  - intros H. apply N_of_ascii_inj. rewrite !N_of_toLower.
    destruct H as [-> | [[Hu E] | [Hu E]]]; [reflexivity| |].
    + pose proof (proj2 (is_upper_spec _) Hu) as Ea. rewrite Ea.
      destruct (is_upper (N_of_ascii b)) eqn:Eb; [|lia].
      apply is_upper_spec in Eb. unfold upper_case_unit in *. lia.
    + pose proof (proj2 (is_upper_spec _) Hu) as Eb. rewrite Eb.
      destruct (is_upper (N_of_ascii a)) eqn:Ea; [|lia].
      apply is_upper_spec in Ea. unfold upper_case_unit in *. lia.
Qed.

Lemma QChar_eq_matches cs c a : QChar_eq cs c a = true <-> char_matches cs c a.
Proof.
  destruct cs; [apply QChar_eq_same_letter | apply Ascii.eqb_eq].
Qed.

Lemma match_here_star cs p s :
  match_here cs (WAnySeq :: p) s
  = match_here cs p s ||
    match s with
    | _ :: s' => match_here cs (WAnySeq :: p) s'
    | [] => false
    end.
Proof. destruct s; reflexivity. Qed.

Lemma match_here_star_iff cs p s :
  match_here cs (WAnySeq :: p) s = true
  <-> exists u t, s = u ++ t /\ match_here cs p t = true.
Proof.
  induction s as [|a s IH]; rewrite match_here_star.
  - rewrite orb_false_r. split.
    + intros H. exists [], []. auto.
    + intros (u & t & E & H). symmetry in E. apply app_eq_nil in E as [-> ->]. exact H.
  - rewrite orb_true_iff, IH. split.
    + intros [H | (u & t & -> & H)].
      * exists [], (a :: s). auto.
      * exists (a :: u), t. auto.
    + intros (u & t & E & H). destruct u as [|b u]; cbn in E.
      * subst t. now left.
      * injection E as -> ->. right. eauto.
Qed.

Lemma match_here_sound cs p :
  forall s, match_here cs p s = true ->
            exists mid post, s = mid ++ post /\ wmatch cs p mid.
Proof.
  induction p as [|w p IH]; intros s H.
  - exists [], s. split; [reflexivity | constructor].
  - destruct w.
    + destruct s as [|a s]; [discriminate|]. cbn in H.
      apply andb_true_iff in H as [Hc H]. apply QChar_eq_matches in Hc.
      destruct (IH _ H) as (mid & post & -> & Hm).
      exists (a :: mid), post. split; [reflexivity | now apply wmatch_char].
    + destruct s as [|a s]; [discriminate|]. cbn in H.
      destruct (IH _ H) as (mid & post & -> & Hm).
      exists (a :: mid), post. split; [reflexivity | now apply wmatch_any].
    + apply match_here_star_iff in H as (u & t & -> & H).
      destruct (IH _ H) as (mid & post & -> & Hm).
      exists (u ++ mid), post. split; [now rewrite app_assoc | now apply wmatch_seq].
    + destruct s as [|a s]; [discriminate|]. cbn in H.
      apply andb_true_iff in H as [Hc H].
      destruct (IH _ H) as (mid & post & -> & Hm).
      exists (a :: mid), post. split; [reflexivity | now apply wmatch_set].
Qed.

Lemma match_here_complete cs p mid :
  wmatch cs p mid -> forall post, match_here cs p (mid ++ post) = true.
Proof.
  induction 1 as [|c a p s Hc _ IH|a p s _ IH|u p s _ IH|f a p s Hc _ IH]; intros post.
  - reflexivity.
  - apply QChar_eq_matches in Hc. cbn -[QChar_eq]. now rewrite Hc, IH.
  - cbn. apply IH.
  - apply match_here_star_iff. exists u, (s ++ post).
    split; [now rewrite app_assoc | apply IH].
  - cbn. now rewrite Hc, IH.
Qed.

Lemma match_anywhere_iff cs p s :
  match_anywhere cs p s = true
  <-> exists pre mid post, s = pre ++ mid ++ post /\ wmatch cs p mid.
Proof.
  induction s as [|a s IH]; cbn [match_anywhere].
  - rewrite orb_false_r. split.
    + intros H. destruct (match_here_sound _ _ _ H) as (mid & post & E & Hm).
      exists [], mid, post. auto.
    + intros (pre & mid & post & E & Hm).
      symmetry in E. apply app_eq_nil in E as [-> E].
      rewrite <- E. now apply match_here_complete.
  - rewrite orb_true_iff, IH. split.
    + intros [H | (pre & mid & post & -> & Hm)].
      * destruct (match_here_sound _ _ _ H) as (mid & post & E & Hm).
        exists [], mid, post. auto.
      * exists (a :: pre), mid, post. auto.
    + intros (pre & mid & post & E & Hm). destruct pre as [|b pre]; cbn in E.
      * left. rewrite E. now apply match_here_complete.
      * injection E as -> ->. right. eauto.
Qed.

Lemma contains_iff s rx :
  contains s rx = true
  <-> matches_substring (caseSensitivity rx) (pattern rx) s.
Proof. unfold contains, matches_substring. apply match_anywhere_iff. Qed.

Lemma filterAcceptsRow_entry strings rx r :
  StringsSortFilterProxyModel.filterAcceptsRow strings rx r
  = contains (string (entry_of strings r)) rx.
Proof. reflexivity. Qed.

(** ** The stable sort *)

Section StableSortFacts.
Context {A : Type}.
Variable lt : A -> A -> bool.

Lemma insert_sorted_perm x l : Permutation (insert_sorted lt x l) (x :: l).
Proof.
  induction l as [|y l IH]; cbn; [reflexivity|].
  destruct (lt y x); [|reflexivity].
  rewrite IH. apply perm_swap.
Qed.

Lemma stable_sort_perm l : Permutation (stable_sort lt l) l.
Proof.
  induction l as [|x l IH]; cbn; [reflexivity|].
  fold (stable_sort lt l). rewrite insert_sorted_perm. now constructor.
Qed.


Lemma stable_sort_In x l : In x (stable_sort lt l) <-> In x l.
Proof.
  split; apply Permutation_in; [|symmetry]; apply stable_sort_perm.
Qed.

Lemma insert_sorted_ext lt2 x l :
  (forall y, In y l -> lt y x = lt2 y x) ->
  insert_sorted lt x l = insert_sorted lt2 x l.
Proof.
  induction l as [|y l IH]; intros H; cbn; [reflexivity|].
  rewrite <- (H y) by (now left).
  rewrite IH by (intros z Hz; apply H; now right). reflexivity.
Qed.

Hypothesis lt_asym : forall a b, lt a b = true -> lt b a = false.

Lemma insert_sorted_HdRel x y l :
  lt x y = false ->
  HdRel (in_order lt) y l -> HdRel (in_order lt) y (insert_sorted lt x l).
Proof.
  intros Hxy H. destruct l as [|z l]; cbn.
  - constructor. exact Hxy.
  - inversion H; subst. destruct (lt z x); constructor; assumption.
Qed.

Lemma insert_sorted_Sorted x l :
  Sorted (in_order lt) l -> Sorted (in_order lt) (insert_sorted lt x l).
Proof.
  induction 1 as [|y l Hs IH Hh]; cbn.
  - repeat constructor.
  - destruct (lt y x) eqn:E.
    + constructor; [exact IH|].
      apply insert_sorted_HdRel; [|exact Hh]. now apply lt_asym.
    + constructor; [now constructor|]. constructor. exact E.
Qed.

Lemma stable_sort_Sorted l : Sorted (in_order lt) (stable_sort lt l).
Proof.
  induction l as [|x l IH]; cbn; [constructor|].
  now apply insert_sorted_Sorted.
Qed.

Hypothesis lt_negtrans :
  forall a b c, lt a b = false -> lt b c = false -> lt a c = false.

Lemma insert_sorted_tied c x l :
  List.filter (tied lt c) (insert_sorted lt x l)
  = List.filter (tied lt c) (x :: l).
Proof.
  induction l as [|y l IH]; [reflexivity|].
  cbn [insert_sorted]. destruct (lt y x) eqn:E; [|reflexivity].
  cbn [List.filter] in *. rewrite IH.
  destruct (tied lt c x) eqn:Tx; [|reflexivity].
  destruct (tied lt c y) eqn:Ty; [|reflexivity].
  exfalso. unfold tied in Tx, Ty.
  apply andb_true_iff in Tx as [Tx _]. apply andb_true_iff in Ty as [_ Ty].
  apply negb_true_iff in Tx, Ty.
  rewrite (lt_negtrans _ _ _ Ty Tx) in E. discriminate.
Qed.

(** Stability: the elements tied with [c] leave the sort in the order
    in which they entered it. *)
Lemma stable_sort_tied c l :
  List.filter (tied lt c) (stable_sort lt l) = List.filter (tied lt c) l.
Proof.
  induction l as [|x l IH]; [reflexivity|].
  cbn [stable_sort foldr]. fold (stable_sort lt l).
  rewrite insert_sorted_tied. cbn [List.filter]. now rewrite IH.
Qed.
End StableSortFacts.

Lemma stable_sort_ext {A} (lt lt2 : A -> A -> bool) l :
  (forall x y, In x l -> In y l -> lt x y = lt2 x y) ->
  stable_sort lt l = stable_sort lt2 l.
Proof.
  induction l as [|x l IH]; intros H; [reflexivity|].
  cbn [stable_sort foldr]. fold (stable_sort lt l) (stable_sort lt2 l).
  rewrite <- IH by (intros a b Ha Hb; apply H; now right).
  apply insert_sorted_ext. intros y Hy.
  apply H; [right; now apply stable_sort_In in Hy | now left].
Qed.

Lemma Sorted_adjacent {A} (R : A -> A -> Prop) (l : list A) :
  Sorted R l ->
  forall (i : nat) a b, l !! i = Some a -> l !! S i = Some b -> R a b.
Proof.
  induction 1 as [|x l Hs IH Hh]; intros i a b Ha Hb; [discriminate|].
  destruct i as [|i]; cbn in Ha, Hb.
  - injection Ha as ->. destruct l as [|y l]; [discriminate|].
    cbn in Hb. injection Hb as ->. now inversion Hh.
  - eapply IH; eassumption.
Qed.

(** ** The comparator is a strict weak ordering *)

Lemma string_compare_le_trans (a : QString) :
  forall b c, String.compare a b <> Gt -> String.compare b c <> Gt ->
              String.compare a c <> Gt.
Proof.
  induction a as [|x a IH]; intros [|y b] [|z c]; cbn; try congruence.
  unfold Ascii.compare.
  destruct (N.compare_spec (N_of_ascii x) (N_of_ascii y));
    destruct (N.compare_spec (N_of_ascii y) (N_of_ascii z));
    destruct (N.compare_spec (N_of_ascii x) (N_of_ascii z));
    try congruence; try lia.
  apply IH.
Qed.

Lemma string_compare_refl (a : QString) : String.compare a a = Eq.
Proof.
  induction a as [|x a IH]; cbn; [reflexivity|].
  unfold Ascii.compare. now rewrite N.compare_refl.
Qed.

Lemma QString_lt_irrefl a : QString_lt a a = false.
Proof. unfold QString_lt, String.ltb. now rewrite string_compare_refl. Qed.

Lemma QString_lt_false a b : QString_lt a b = false <-> String.compare b a <> Gt.
Proof.
  unfold QString_lt, String.ltb. rewrite (String.compare_antisym a b).
  destruct (String.compare b a); cbn; split; congruence.
Qed.

Lemma QString_lt_negtrans a b c :
  QString_lt a b = false -> QString_lt b c = false -> QString_lt a c = false.
Proof.
  rewrite !QString_lt_false. intros H1 H2.
  eapply string_compare_le_trans; eassumption.
Qed.

Lemma QString_lt_asym a b : QString_lt a b = true -> QString_lt b a = false.
Proof.
  unfold QString_lt, String.ltb. rewrite (String.compare_antisym b a).
  destruct (String.compare a b); cbn; congruence.
Qed.

Lemma entry_lessThan_asym col a b :
  entry_lessThan col a b = true -> entry_lessThan col b a = false.
Proof.
  unfold entry_lessThan.
  repeat match goal with |- context [if ?c =? ?d then _ else _] => destruct (c =? d) end;
    try apply QString_lt_asym; intros H; apply Z.ltb_lt in H; apply Z.ltb_ge; lia.
Qed.

Lemma entry_lessThan_negtrans col a b c :
  entry_lessThan col a b = false -> entry_lessThan col b c = false ->
  entry_lessThan col a c = false.
Proof.
  unfold entry_lessThan.
  repeat match goal with |- context [if ?c =? ?d then _ else _] => destruct (c =? d) end;
    try apply QString_lt_negtrans; rewrite !Z.ltb_ge; lia.
Qed.

Lemma entry_lessThan_irrefl col a : entry_lessThan col a a = false.
Proof.
  unfold entry_lessThan.
  repeat match goal with |- context [if ?c =? ?d then _ else _] => destruct (c =? d) end;
    try apply QString_lt_irrefl; apply Z.ltb_irrefl.
Qed.

Lemma entry_comparator_asym strings col o a b :
  entry_comparator strings col o a b = true ->
  entry_comparator strings col o b a = false.
Proof.
  unfold entry_comparator, entry_row_lessThan, less_int.
  destruct ((0 <=? col) && (col <? StringsModel.columnCount)).
  - destruct o; apply entry_lessThan_asym.
  - rewrite Z.ltb_lt, Z.ltb_ge. lia.
Qed.

Lemma entry_comparator_negtrans strings col o a b c :
  entry_comparator strings col o a b = false ->
  entry_comparator strings col o b c = false ->
  entry_comparator strings col o a c = false.
Proof.
  unfold entry_comparator, entry_row_lessThan, less_int.
  destruct ((0 <=? col) && (col <? StringsModel.columnCount)).
  - destruct o; intros H1 H2; eapply entry_lessThan_negtrans; eassumption.
  - rewrite !Z.ltb_ge. lia.
Qed.

(** On rows of the source model the comparator built from [lessThan]
    compares the entries of the two rows. *)
Lemma comparator_entry strings col o r1 r2 :
  0 <= r1 < count strings -> 0 <= r2 < count strings ->
  Proxy.comparator strings col o r1 r2 = entry_comparator strings col o r1 r2.
Proof.
  intros H1 H2. unfold Proxy.comparator, entry_comparator.
  destruct ((0 <=? col) && (col <? StringsModel.columnCount)) eqn:E; [|reflexivity].
  apply andb_true_iff in E as [E1 E2].
  apply Z.leb_le in E1. apply Z.ltb_lt in E2.
  unfold StringsModel.columnCount in E2.
  unfold Proxy.row_lessThan, entry_row_lessThan.
  destruct o; rewrite lessThan_entry, !payload_index by lia;
    rewrite index_in_range by (assumption || lia); reflexivity.
Qed.

Lemma source_range_In n r : In r (source_range n) <-> 0 <= r < Z.of_nat n.
Proof.
  unfold source_range. rewrite in_map_iff. split.
  - intros (k & <- & Hk). apply in_seq in Hk. lia.
  - intros H. exists (Z.to_nat r). split; [lia|]. apply in_seq. lia.
Qed.

Lemma accepted_rows_In strings rx r :
  In r (accepted_rows strings rx) -> 0 <= r < count strings.
Proof.
  unfold accepted_rows. intros H. apply filter_In in H as [H _].
  now apply source_range_In in H.
Qed.

Lemma sort_source_rows_entry strings col o rows :
  (forall r, In r rows -> 0 <= r < count strings) ->
  Proxy.sort_source_rows strings col o rows
  = stable_sort (entry_comparator strings col o) rows.
Proof.
  intros H. unfold Proxy.sort_source_rows. apply stable_sort_ext.
  intros x y Hx Hy. apply comparator_entry; auto.
Qed.

Lemma create_mapping_entry strings rx col o :
  Proxy.create_mapping strings rx col o
  = stable_sort (entry_comparator strings col o) (accepted_rows strings rx).
Proof.
  unfold Proxy.create_mapping. apply sort_source_rows_entry.
  apply accepted_rows_In.
Qed.

(** ** The invariant of the proxy's mapping *)

Lemma inv_in_range w :
  widget_inv w -> forall r, In r (source_rows w) -> 0 <= r < count (strings w).
Proof.
  intros [Hp _ _] r Hr. eapply accepted_rows_In, Permutation_in; eassumption.
Qed.

Lemma widget_inv_new : widget_inv StringsWidget_new.
Proof. split; cbn; [reflexivity | constructor | reflexivity]. Qed.

Lemma widget_inv_stringSearchFinished new_strings w :
  widget_inv w -> widget_inv (stringSearchFinished new_strings w).
Proof.
  intros [_ _ Hc]. split; cbn [stringSearchFinished source_rows strings filterRegExp
                               sort_column sort_order].
  - rewrite create_mapping_entry. apply stable_sort_perm.
  - rewrite create_mapping_entry. apply stable_sort_Sorted.
    intros a b. apply entry_comparator_asym.
  - exact Hc.
Qed.

Lemma widget_inv_setFilterWildcard p w :
  widget_inv w -> widget_inv (setFilterWildcard p w).
Proof.
  intros [_ _ Hc]. split; cbn [setFilterWildcard source_rows strings filterRegExp
                               sort_column sort_order].
  - rewrite create_mapping_entry, Hc. apply stable_sort_perm.
  - rewrite create_mapping_entry, Hc. apply stable_sort_Sorted.
    intros a b. apply entry_comparator_asym.
  - exact Hc.
Qed.

Lemma widget_inv_sortByColumn c o w :
  widget_inv w -> widget_inv (sortByColumn c o w).
Proof.
  intros Hw. pose proof (inv_in_range _ Hw) as Hr. destruct Hw as [Hp _ Hc].
  split; cbn [sortByColumn source_rows strings filterRegExp sort_column sort_order].
  - rewrite sort_source_rows_entry by exact Hr.
    now rewrite stable_sort_perm.
  - rewrite sort_source_rows_entry by exact Hr. apply stable_sort_Sorted.
    intros a b. apply entry_comparator_asym.
  - exact Hc.
Qed.

Lemma widget_inv_set_task o w : widget_inv w -> widget_inv (set_task o w).
Proof. intros [Hp Hs Hc]. split; assumption. Qed.

Lemma widget_inv_apply_op w o : widget_inv w -> widget_inv (apply_op w o).
Proof.
  destruct o; cbn.
  - apply widget_inv_setFilterWildcard.
  - apply widget_inv_sortByColumn.
  - apply widget_inv_stringSearchFinished.
Qed.

Lemma widget_inv_apply_ops os : forall w, widget_inv w -> widget_inv (apply_ops os w).
Proof.
  induction os as [|o os IH]; intros w Hw; [exact Hw|].
  apply IH, widget_inv_apply_op, Hw.
Qed.

Lemma widget_inv_step W e : widget_inv (widget W) -> widget_inv (widget (step W e)).
Proof.
  intros Hw. destruct e; cbn.
  - unfold refreshStrings. cbn. apply widget_inv_set_task.
    destruct (task (widget W)); [|exact Hw].
    unfold wait, finish. destruct (find _ _); exact Hw.
  - unfold finish. destruct (find _ _); exact Hw.
  - exact Hw.
  - unfold deliver. destruct (posted W) as [|[t r] rest]; [exact Hw|].
    now apply widget_inv_stringSearchFinished.
  - now apply widget_inv_setFilterWildcard.
  - now apply widget_inv_sortByColumn.
Qed.

Lemma widget_inv_run es : forall W, widget_inv (widget W) -> widget_inv (widget (run es W)).
Proof.
  induction es as [|e es IH]; intros W Hw; [exact Hw|].
  apply IH, widget_inv_step, Hw.
Qed.

(** ** Counting the accepted entries *)

Lemma entries_of_range pre l :
  map (entry_of (pre ++ l))
      (map Z.of_nat (seq (List.length pre) (List.length l))) = l.
Proof.
  revert pre. induction l as [|x l IH]; intros pre; [reflexivity|].
  cbn [List.length seq map]. f_equal.
  - apply entry_of_lookup. apply list_lookup_middle. reflexivity.
  - specialize (IH (pre ++ [x])).
    rewrite <- app_assoc, length_app in IH. cbn in IH.
    rewrite Nat.add_1_r in IH. exact IH.
Qed.

Lemma entries_of_source_range strings :
  map (entry_of strings) (source_range (List.length strings)) = strings.
Proof. apply (entries_of_range [] strings). Qed.

Lemma filter_map_comm {A B} (f : B -> bool) (g : A -> B) l :
  List.filter f (map g l) = map g (List.filter (fun x => f (g x)) l).
Proof.
  induction l as [|x l IH]; cbn; [reflexivity|].
  destruct (f (g x)); cbn; now rewrite IH.
Qed.

(** The entries of the accepted rows are the stored entries whose text
    the filter matches. *)
Lemma accepted_entries strings rx :
  map (entry_of strings) (accepted_rows strings rx)
  = List.filter (fun e => contains (string e) rx) strings.
Proof.
  unfold accepted_rows.
  transitivity (List.filter (fun e => contains (string e) rx)
                  (map (entry_of strings) (source_range (List.length strings)))).
  - rewrite filter_map_comm. reflexivity.
  - now rewrite entries_of_source_range.
Qed.

Lemma filter_length_le {A} (f : A -> bool) l :
  (List.length (List.filter f l) <= List.length l)%nat.
Proof.
  induction l as [|x l IH]; cbn; [lia|]. destruct (f x); cbn; lia.
Qed.

Lemma inv_rowCount w :
  widget_inv w ->
  proxy_rowCount w
  = count (List.filter (fun e => contains (string e) (filterRegExp w)) (strings w)).
Proof.
  intros [Hp _ _]. unfold proxy_rowCount, count.
  rewrite (Permutation_length Hp), <- accepted_entries, length_map. reflexivity.
Qed.

Lemma widget_inv_view_after os : widget_inv (view_after os).
Proof. apply widget_inv_apply_ops, widget_inv_new. Qed.

(** ** Reading rows through the view *)

Lemma proxy_index_in_range w i :
  0 <= i < proxy_rowCount w -> proxy_index w i 0 = mkIndex i 0 true.
Proof.
  intros H. unfold proxy_index.
  destruct (Z.leb_spec 0 i); [|lia].
  destruct (Z.ltb_spec i (proxy_rowCount w)); [|lia]. reflexivity.
Qed.

Lemma proxy_index_outside w i c :
  ~ (0 <= i < proxy_rowCount w) -> proxy_index w i c = QModelIndex_invalid.
Proof.
  intros H. unfold proxy_index.
  destruct (Z.leb_spec 0 i); [|reflexivity].
  destruct (Z.ltb_spec i (proxy_rowCount w)); [lia|reflexivity].
Qed.

Lemma row_at_outside w i :
  ~ (0 <= i < proxy_rowCount w) -> row_at i w = (Returned Invalid, w).
Proof.
  intros H. unfold row_at. now rewrite proxy_index_outside.
Qed.

Lemma row_at_inside w i :
  widget_inv w -> 0 <= i < proxy_rowCount w ->
  exists r, at_ (source_rows w) i = Returned r
            /\ 0 <= r < count (strings w)
            /\ row_at i w = (Returned (VStringDescription (entry_of (strings w) r)), w).
Proof.
  intros Hw Hi.
  destruct (at_in_range (source_rows w) i Hi) as [r Hr].
  assert (Hin : In r (source_rows w)).
  { apply at_Returned in Hr as [_ Hr].
    apply list_elem_of_In, list_elem_of_lookup. eauto. }
  pose proof (inv_in_range _ Hw _ Hin) as Hrange.
  exists r. split; [exact Hr|]. split; [exact Hrange|].
  unfold row_at. rewrite proxy_index_in_range by exact Hi.
  assert (Hv : isValid (mkIndex i 0 true) = true).
  { unfold isValid. cbn. destruct (Z.leb_spec 0 i); [reflexivity | lia]. }
  rewrite Hv. unfold proxy_data, mapToSource. rewrite Hv. cbn [row column].
  rewrite Hr, index_in_range by (assumption || (unfold StringsModel.COUNT; lia)).
  assert (Hv' : isValid (mkIndex r 0 true) = true).
  { unfold isValid. cbn. destruct (Z.leb_spec 0 r); [reflexivity | lia]. }
  rewrite Hv'. cbn [negb andb].
  destruct (at_in_range (strings w) r Hrange) as [str Hstr].
  rewrite (data_payload _ _ str) by exact Hstr.
  replace (entry_of (strings w) r) with str; [reflexivity|].
  apply at_Returned in Hstr as [H0 Hl].
  rewrite <- (Z2Nat.id r) by lia. symmetry. now apply entry_of_lookup.
Qed.

(** ** Row lookups: C3, C8, C9 *)

(** C3, as stated, fails: a lookup of a row at or past the row count does
    not fail with an index-out-of-range error; it returns normally, with
    the empty value.  Here the store holds one entry and row 1 is asked
    for, through the model and through the view. *)
Lemma row_past_the_end_returns_empty :
  count [entry_a20] <= 1
  /\ StringsModel.data [entry_a20] (mkIndex 1 0 true) StringsModel.StringDescriptionRole
     = Returned Invalid
  /\ StringsModel.data [entry_a20] (mkIndex 1 0 true) StringsModel.StringDescriptionRole
     <> IndexOutOfRange
  /\ proxy_rowCount (view_after [Replace [entry_a20]]) <= 1
  /\ fst (row_at 1 (view_after [Replace [entry_a20]])) = Returned Invalid
  /\ fst (row_at 1 (view_after [Replace [entry_a20]])) <> IndexOutOfRange.
Proof. vm_compute. repeat split; congruence. Qed.

(** C3, amended: for every index [i] at or past the row count the lookup
    returns the empty value to its caller, as a normal return, and leaves
    the widget as it was; for every [i] from 0 up to the row count it
    returns the entry at [projection[i]], the source row the view maps [i]
    to.  The same holds of the model's own lookup against the entry
    count. *)
Theorem row_at_total (os : list view_op) (i c role : Z) (m : bool) :
  (proxy_rowCount (view_after os) <= i ->
   row_at i (view_after os) = (Returned Invalid, view_after os))
  /\ (count (strings (view_after os)) <= i ->
      StringsModel.data (strings (view_after os)) (mkIndex i c m) role = Returned Invalid)
  /\ (0 <= i < proxy_rowCount (view_after os) ->
      exists r, at_ (source_rows (view_after os)) i = Returned r
                /\ row_at i (view_after os)
                   = (Returned (VStringDescription (entry_of (strings (view_after os)) r)),
                      view_after os))
  /\ (0 <= i < count (strings (view_after os)) ->
      exists str, at_ (strings (view_after os)) i = Returned str
                  /\ StringsModel.data (strings (view_after os)) (mkIndex i c m)
                       StringsModel.StringDescriptionRole
                     = Returned (VStringDescription str)).
Proof.
  repeat split.
  - intros H. apply row_at_outside. lia.
  - intros H. now apply data_past_end.
  - intros H.
    destruct (row_at_inside _ i (widget_inv_view_after os) H) as (r & Hr & _ & E).
    eauto.
  - intros H. destruct (at_in_range _ i H) as [str Hstr].
    exists str. split; [exact Hstr|]. now apply data_payload.
Qed.

Lemma row_at_total_witness :
  exists r, at_ (source_rows (view_after [Replace [entry_a20; entry_a10]])) 0 = Returned r
            /\ row_at 0 (view_after [Replace [entry_a20; entry_a10]])
               = (Returned (VStringDescription
                              (entry_of (strings (view_after [Replace [entry_a20; entry_a10]])) r)),
                  view_after [Replace [entry_a20; entry_a10]]).
Proof.
  apply (proj1 (proj2 (proj2
           (row_at_total [Replace [entry_a20; entry_a10]] 0 0 0 true)))).
  vm_compute. split; congruence.
Defined.

(** C8: for every valid row index, reading the row twice with no
    operation in between yields the same entry both times, and the reads
    leave the widget as it was. *)
Theorem row_at_idempotent (os : list view_op) (i : Z)
    (Hvalid : 0 <= i < proxy_rowCount (view_after os)) :
  exists e,
    fst (row_at i (view_after os)) = Returned (VStringDescription e)
    /\ fst (row_at i (snd (row_at i (view_after os)))) = Returned (VStringDescription e)
    /\ snd (row_at i (snd (row_at i (view_after os)))) = view_after os
    /\ fst (row_count (snd (row_at i (view_after os)))) = fst (row_count (view_after os)).
Proof.
  destruct (row_at_inside _ i (widget_inv_view_after os) Hvalid) as (r & _ & _ & E).
  exists (entry_of (strings (view_after os)) r).
  rewrite E. cbn [fst snd]. rewrite E. cbn [fst snd]. repeat split.
Qed.

Lemma row_at_idempotent_witness :
  exists e,
    fst (row_at 1 (view_after [Replace [entry_a20; entry_a10]]))
    = Returned (VStringDescription e)
    /\ fst (row_at 1 (snd (row_at 1 (view_after [Replace [entry_a20; entry_a10]]))))
       = Returned (VStringDescription e)
    /\ snd (row_at 1 (snd (row_at 1 (view_after [Replace [entry_a20; entry_a10]]))))
       = view_after [Replace [entry_a20; entry_a10]]
    /\ fst (row_count (snd (row_at 1 (view_after [Replace [entry_a20; entry_a10]]))))
       = fst (row_count (view_after [Replace [entry_a20; entry_a10]])).
Proof.
  apply (row_at_idempotent [Replace [entry_a20; entry_a10]] 1).
  vm_compute. split; congruence.
Defined.

(** C9, as stated, fails: a query with the entry-payload role and a
    column outside the five known ones does not return the empty value;
    it returns the entry of the row. *)
Lemma payload_role_ignores_the_column :
  known_column 7 = false
  /\ StringsModel.data [entry_a20] (mkIndex 0 7 true) StringsModel.StringDescriptionRole
     = Returned (VStringDescription entry_a20)
  /\ StringsModel.data [entry_a20] (mkIndex 0 7 true) StringsModel.StringDescriptionRole
     <> Returned Invalid.
Proof. vm_compute. repeat split; congruence. Qed.

(** C9, amended: the lookup returns the empty value, without reading the
    entry sequence outside its bounds, for every query whose row is at
    least the entry count, and for every query whose row is not negative
    and whose role is the display role with a column outside the five
    known ones, or is neither the display role nor the entry-payload
    role.  With the entry-payload role a row of the sequence yields its
    entry whatever the column. *)
Theorem data_empty_value (strings : QList StringDescription) (i : QModelIndex) (role : Z) :
  (count strings <= row i
   \/ (0 <= row i
       /\ ((role = DisplayRole /\ known_column (column i) = false)
           \/ (role <> DisplayRole /\ role <> StringsModel.StringDescriptionRole))) ->
   StringsModel.data strings i role = Returned Invalid
   /\ StringsModel.data strings i role <> IndexOutOfRange)
  /\ (forall str,
        at_ strings (row i) = Returned str ->
        StringsModel.data strings i StringsModel.StringDescriptionRole
        = Returned (VStringDescription str)).
Proof.
  split; [|intros str H; now apply data_payload].
  intros Hquery.
  assert (E : StringsModel.data strings i role = Returned Invalid).
  { destruct Hquery as [Hge | [H0 Hrole]]; [now apply data_past_end|].
    unfold StringsModel.data.
    destruct (Z.geb_spec (row i) (count strings)) as [|Hlt]; [reflexivity|].
    destruct (at_in_range strings (row i)) as [str ->]; [lia|].
    destruct Hrole as [[-> Hcol] | [Hd Hp]].
    - cbn [Z.eqb DisplayRole]. unfold known_column in Hcol.
      apply orb_false_iff in Hcol as [Hcol H5].
      apply orb_false_iff in Hcol as [Hcol H4].
      apply orb_false_iff in Hcol as [Hcol H3].
      apply orb_false_iff in Hcol as [H1 H2].
      now rewrite H1, H2, H3, H4, H5.
    - apply Z.eqb_neq in Hd, Hp. now rewrite Hd, Hp. }
  split; [exact E | rewrite E; discriminate].
Qed.

Lemma data_empty_value_witness :
  StringsModel.data [entry_a20] (mkIndex 0 7 true) DisplayRole = Returned Invalid
  /\ StringsModel.data [entry_a20] (mkIndex 0 7 true) DisplayRole <> IndexOutOfRange.
Proof.
  apply (proj1 (data_empty_value [entry_a20] (mkIndex 0 7 true) DisplayRole)).
  right. split; [cbn; lia|]. left. split; reflexivity.
Defined.

(** ** The comparator: C10, C7 *)

Lemma payload_with_model strings r c e :
  at_ strings r = Returned e -> payload strings (mkIndex r c true) = e.
Proof.
  intros H. unfold payload, QModelIndex_data. cbn [has_model].
  now rewrite (data_payload _ _ e) by exact H.
Qed.


Lemma known_column_COUNT c :
  known_column c = true <-> 0 <= c < StringsModel.COUNT.
Proof.
  unfold known_column, StringsModel.COUNT,
    StringsModel.OFFSET, StringsModel.STRING, StringsModel.TYPE,
    StringsModel.LENGTH, StringsModel.SIZE.
  rewrite !orb_true_iff, !Z.eqb_eq. lia.
Qed.

Lemma index_known strings r c e :
  at_ strings r = Returned e -> known_column c = true ->
  StringsModel.index strings r c = mkIndex r c true.
Proof.
  intros H Hc. apply index_in_range.
  - eapply at_Returned_lt, H.
  - now apply known_column_COUNT.
Qed.





Lemma is_lower_of_upper n :
  upper_case_unit n ->
  is_lower (n + 32) = true /\ is_lower n = false
  /\ (n =? 181)%N = false /\ (n =? 223)%N = false /\ (n =? 255)%N = false.
Proof.
  intros H. unfold upper_case_unit in H. unfold is_lower.
  repeat split;
    repeat match goal with
      | |- context [(?x <=? ?y)%N] => destruct (N.leb_spec x y)
      | |- context [(?x =? ?y)%N] => destruct (N.eqb_spec x y)
      end; cbn; try reflexivity; lia.
Qed.

Lemma upper_units_same_letter a b : same_letter a b -> upper_units a = upper_units b.
Proof.
  intros [-> | [[Hu E] | [Hu E]]]; [reflexivity| |].
  - destruct (is_lower_of_upper _ Hu) as (L1 & L2 & L3 & L4 & L5).
    unfold upper_units. rewrite E, L1, L2, L3, L4, L5. f_equal. lia.
  - destruct (is_lower_of_upper _ Hu) as (L1 & L2 & L3 & L4 & L5).
    unfold upper_units. rewrite E, L1, L2, L3, L4, L5. f_equal. lia.
Qed.

(** The upper-case form erases the case: two texts that differ at most in
    the case of their letters have the same upper-case form. *)
Lemma toUpper_erases_case s t : same_text_ignoring_case s t -> toUpper s = toUpper t.
Proof.
  unfold same_text_ignoring_case, toUpper.
  induction 1 as [|a b l l' Hab _ IH]; [reflexivity|].
  cbn. now rewrite (upper_units_same_letter _ _ Hab), IH.
Qed.

(** The comparison of two [QString]s is the lexicographic comparison of
    their code units. *)
Lemma QString_lt_units (s t : QString) : QString_lt s t = UString_lt (units s) (units t).
Proof.
  unfold QString_lt, String.ltb, units. revert t.
  induction s as [|a s IH]; intros [|b t]; cbn; try reflexivity.
  unfold Ascii.compare.
  destruct (N.compare_spec (N_of_ascii a) (N_of_ascii b)) as [E|E|E].
  - rewrite E, N.ltb_irrefl. apply IH.
  - now rewrite (proj2 (N.ltb_lt _ _) E).
  - rewrite (proj2 (N.ltb_lt _ _) E).
    destruct (N.ltb_spec (N_of_ascii a) (N_of_ascii b)); [lia | reflexivity].
Qed.

(** C7: the type column displays the kind of the row's entry in upper
    case, which erases its case: kinds that differ only in the case of
    their letters are displayed the same.  A sort on the type column
    compares the kind fields of the two rows' entries as they are stored,
    case-sensitively, code unit by code unit.  The two orders differ: the
    sort puts the kind "B" before the kind "a", the displayed forms put
    "A" before "B". *)
Theorem kind_display_and_sort (strings : QList StringDescription)
    (r1 r2 : Z) (e1 e2 : StringDescription)
    (Hleft : at_ strings r1 = Returned e1)
    (Hright : at_ strings r2 = Returned e2) :
  StringsModel.data strings (StringsModel.index strings r1 StringsModel.TYPE) DisplayRole
  = Returned (VString (toUpper (type e1)))
  /\ (forall kind, same_text_ignoring_case kind (type e1) ->
                   toUpper kind = toUpper (type e1))
  /\ StringsSortFilterProxyModel.lessThan strings
       (StringsModel.index strings r1 StringsModel.TYPE)
       (StringsModel.index strings r2 StringsModel.TYPE)
     = QString_lt (type e1) (type e2)
  /\ QString_lt (type e1) (type e2) = UString_lt (units (type e1)) (units (type e2))
  /\ StringsSortFilterProxyModel.lessThan [entry_kind_a; entry_kind_B]
       (StringsModel.index [entry_kind_a; entry_kind_B] 1 StringsModel.TYPE)
       (StringsModel.index [entry_kind_a; entry_kind_B] 0 StringsModel.TYPE)
     = true
  /\ UString_lt (toUpper (type entry_kind_a)) (toUpper (type entry_kind_B)) = true.
Proof.
  assert (I1 : StringsModel.index strings r1 StringsModel.TYPE
               = mkIndex r1 StringsModel.TYPE true)
    by (now apply (index_known _ _ _ e1)).
  assert (I2 : StringsModel.index strings r2 StringsModel.TYPE
               = mkIndex r2 StringsModel.TYPE true)
    by (now apply (index_known _ _ _ e2)).
  rewrite I1, I2.
  split; [|split; [|split; [|split; [|split; reflexivity]]]].
  - pose proof (at_Returned_lt _ _ _ Hleft) as Hr.
    unfold StringsModel.data. cbn [row column].
    destruct (Z.geb_spec r1 (count strings)); [lia|].
    rewrite Hleft. reflexivity.
  - intros kind H. now apply toUpper_erases_case.
  - rewrite lessThan_entry. cbn [column].
    now rewrite (payload_with_model _ _ _ e1), (payload_with_model _ _ _ e2).
  - apply QString_lt_units.
Qed.

Lemma kind_display_and_sort_witness :
  StringsModel.data [entry_kind_a; entry_kind_B]
    (StringsModel.index [entry_kind_a; entry_kind_B] 0 StringsModel.TYPE) DisplayRole
  = Returned (VString (toUpper (type entry_kind_a)))
  /\ StringsSortFilterProxyModel.lessThan [entry_kind_a; entry_kind_B]
       (StringsModel.index [entry_kind_a; entry_kind_B] 0 StringsModel.TYPE)
       (StringsModel.index [entry_kind_a; entry_kind_B] 1 StringsModel.TYPE)
     = QString_lt (type entry_kind_a) (type entry_kind_B).
Proof.
  pose proof (kind_display_and_sort [entry_kind_a; entry_kind_B] 0 1
                entry_kind_a entry_kind_B eq_refl eq_refl) as H.
  split; [exact (proj1 H) | exact (proj1 (proj2 (proj2 H)))].
Defined.

(** ** The filter and the row count: C4 *)

Lemma apply_ops_snoc os o w : apply_ops (os ++ [o]) w = apply_op (apply_ops os w) o.
Proof. unfold apply_ops. now rewrite fold_left_app. Qed.

(** The view holds the pattern of the last filter change, case
    insensitive, and the dataset of the last replace. *)
Lemma view_after_filter_and_dataset os :
  filterRegExp (view_after os) = mkRegExp (last_filter os) CaseInsensitive
  /\ strings (view_after os) = last_dataset os.
Proof.
  induction os as [|o os IH] using rev_ind; [split; reflexivity|].
  destruct IH as [IH1 IH2].
  unfold view_after, last_filter, last_dataset in *.
  rewrite apply_ops_snoc, !fold_left_app. cbn [fold_left].
  destruct o; cbn [apply_op setFilterWildcard sortByColumn stringSearchFinished
                   filterRegExp strings]; split; try assumption; try reflexivity.
  now rewrite IH1.
Qed.

(** C4: after any sequence of filter, sort and replace operations the
    filter is the pattern of the last filter change, compared without
    regard to case; it accepts a stored entry exactly when some part of
    the entry's text matches that pattern; and the row count is the
    number of entries of the last replaced dataset that the pattern
    matches, which is at most the number of stored entries. *)
Theorem filter_and_row_count (os : list view_op) :
  filterRegExp (view_after os) = mkRegExp (last_filter os) CaseInsensitive
  /\ strings (view_after os) = last_dataset os
  /\ (forall (n : nat) (e : StringDescription),
        last_dataset os !! n = Some e ->
        (StringsSortFilterProxyModel.filterAcceptsRow
           (strings (view_after os)) (filterRegExp (view_after os)) (Z.of_nat n) = true
         <-> matches_substring CaseInsensitive (last_filter os) (string e)))
  /\ (forall e : StringDescription,
        contains (string e) (mkRegExp (last_filter os) CaseInsensitive) = true
        <-> matches_substring CaseInsensitive (last_filter os) (string e))
  /\ fst (row_count (view_after os))
     = count (List.filter
                (fun e => contains (string e) (mkRegExp (last_filter os) CaseInsensitive))
                (last_dataset os))
  /\ fst (row_count (view_after os)) <= count (last_dataset os).
Proof.
  pose proof (widget_inv_view_after os) as Hw.
  destruct (view_after_filter_and_dataset os) as [Hrx Hds].
  split; [exact Hrx|]. split; [exact Hds|]. split; [|split; [|split]].
  - intros n e Hentry. rewrite <- Hds in Hentry.
    rewrite filterAcceptsRow_entry, (entry_of_lookup _ _ _ Hentry), Hrx, contains_iff.
    reflexivity.
  - intros e. rewrite contains_iff. reflexivity.
  - cbn [row_count fst]. rewrite (inv_rowCount _ Hw), Hrx, Hds. reflexivity.
  - cbn [row_count fst]. rewrite (inv_rowCount _ Hw), Hds. unfold count.
    apply inj_le, filter_length_le.
Qed.

Lemma filter_and_row_count_witness :
  StringsSortFilterProxyModel.filterAcceptsRow
    (strings (view_after [Replace [entry_abc; entry_xyz]; SetFilter [WChar "X"]]))
    (filterRegExp (view_after [Replace [entry_abc; entry_xyz]; SetFilter [WChar "X"]]))
    (Z.of_nat 1) = true
  /\ fst (row_count (view_after [Replace [entry_abc; entry_xyz]; SetFilter [WChar "X"]]))
     = 1.
Proof.
  pose proof (filter_and_row_count
                [Replace [entry_abc; entry_xyz]; SetFilter [WChar "X"]]) as H.
  destruct H as (_ & _ & Hacc & _ & Hcount & _). split.
  - apply (Hacc 1%nat entry_xyz eq_refl).
    exists [], ["x"%char], ["y"%char; "z"%char]. split; [reflexivity|].
    apply wmatch_char; [|apply wmatch_nil].
    right. left. unfold upper_case_unit. cbn. lia.
  - rewrite Hcount. reflexivity.
Defined.

(** The scenario of the specification: two entries, the filter "x", then
    a replace by one entry. *)
Example scenario_filter_then_replace :
  fst (row_count (view_after [Replace [entry_abc; entry_xyz];
                              SetFilter ([WChar "x"])])) = 1
  /\ fst (row_at 0 (view_after [Replace [entry_abc; entry_xyz];
                                SetFilter ([WChar "x"])]))
     = Returned (VStringDescription entry_xyz)
  /\ fst (row_count (view_after [Replace [entry_abc; entry_xyz];
                                 SetFilter ([WChar "x"]);
                                 Replace [entry_abcx]])) = 1
  /\ fst (row_at 0 (view_after [Replace [entry_abc; entry_xyz];
                                SetFilter ([WChar "x"]);
                                Replace [entry_abcx]]))
     = Returned (VStringDescription entry_abcx).
Proof. vm_compute. repeat split. Qed.

(** ** The order of the view: C2 *)

Lemma before_filter {A} (f : A -> bool) x y (l : list A) :
  before x y l -> f x = true -> f y = true -> before x y (List.filter f l).
Proof.
  intros (l1 & l2 & l3 & ->) Hx Hy.
  exists (List.filter f l1), (List.filter f l2), (List.filter f l3).
  rewrite List.filter_app. cbn. rewrite Hx, List.filter_app. cbn. now rewrite Hy.
Qed.

Lemma before_cons {A} (z x y : A) l : before x y l -> before x y (z :: l).
Proof. intros (l1 & l2 & l3 & ->). now exists (z :: l1), l2, l3. Qed.

Lemma before_head {A} (x y : A) l : In y l -> before x y (x :: l).
Proof.
  intros H. apply in_split in H as (l2 & l3 & ->). now exists [], l2, l3.
Qed.

Lemma before_inv {A} (x y z : A) l :
  before x y (z :: l) -> (z = x /\ In y l) \/ before x y l.
Proof.
  intros (l1 & l2 & l3 & E). destruct l1 as [|w l1]; cbn in E; injection E as -> ->.
  - left. split; [reflexivity|]. apply in_or_app. right. now left.
  - right. now exists l1, l2, l3.
Qed.

Lemma before_of_filter {A} (f : A -> bool) x y (l : list A) :
  before x y (List.filter f l) -> before x y l.
Proof.
  induction l as [|z l IH]; cbn.
  - intros (l1 & l2 & l3 & E). destruct l1; discriminate.
  - destruct (f z).
    + intros H. apply before_inv in H as [[-> Hy] | H].
      * apply before_head. now apply filter_In in Hy.
      * apply before_cons, IH, H.
    + intros H. apply before_cons, IH, H.
Qed.

Lemma before_increasing x y (l : list Z) :
  StronglySorted Z.lt l -> before x y l -> x < y.
Proof.
  induction 1 as [|z l Hs IH Hall]; intros H.
  - destruct H as (l1 & l2 & l3 & E). destruct l1; discriminate.
  - apply before_inv in H as [[-> Hy] | H]; [|auto].
    rewrite Forall_forall in Hall. apply Hall. now apply list_elem_of_In.
Qed.

Lemma before_adjacent {A} (l : list A) (i : nat) a b :
  l !! i = Some a -> l !! S i = Some b -> before a b l.
Proof.
  revert i. induction l as [|z l IH]; intros i Ha Hb; [discriminate|].
  destruct i as [|i]; cbn in Ha, Hb.
  - injection Ha as ->. destruct l as [|y l]; [discriminate|].
    cbn in Hb. injection Hb as ->. now exists [], [], l.
  - eapply before_cons, IH; eassumption.
Qed.

Lemma seq_increasing start n : StronglySorted Z.lt (map Z.of_nat (seq start n)).
Proof.
  revert start. induction n as [|n IH]; intros start; cbn; constructor; [apply IH|].
  apply Forall_forall. intros z Hz. apply list_elem_of_In, in_map_iff in Hz as (k & <- & Hk).
  apply in_seq in Hk. lia.
Qed.

Lemma filter_increasing (f : Z -> bool) l :
  StronglySorted Z.lt l -> StronglySorted Z.lt (List.filter f l).
Proof.
  induction 1 as [|z l Hs IH Hall]; cbn; [constructor|].
  destruct (f z); [|exact IH]. constructor; [exact IH|].
  apply Forall_forall. intros y Hy. apply list_elem_of_In, filter_In in Hy as [Hy _].
  rewrite Forall_forall in Hall. apply Hall. now apply list_elem_of_In.
Qed.

Lemma accepted_rows_increasing strings rx :
  StronglySorted Z.lt (accepted_rows strings rx).
Proof. apply filter_increasing, seq_increasing. Qed.

(** Right after a replace, rows that are tied under the comparator stand
    in the view in the order of the backing sequence. *)
Lemma create_mapping_ties strings rx col o a b :
  before a b (Proxy.create_mapping strings rx col o) ->
  tied (entry_comparator strings col o) a b = true ->
  a < b.
Proof.
  intros Hb Ht. rewrite create_mapping_entry in Hb.
  assert (Hirr : tied (entry_comparator strings col o) a a = true).
  { unfold tied. apply andb_true_iff in Ht as [Ht _]. apply negb_true_iff in Ht.
    destruct (entry_comparator strings col o a a) eqn:E; [|reflexivity].
    now rewrite (entry_comparator_asym _ _ _ _ _ E) in E. }
  apply (before_filter (tied (entry_comparator strings col o) a)) in Hb; try assumption.
  rewrite stable_sort_tied in Hb by apply entry_comparator_negtrans.
  apply before_of_filter in Hb.
  eapply before_increasing; [apply accepted_rows_increasing | exact Hb].
Qed.

Lemma view_after_snoc os o : view_after (os ++ [o]) = apply_op (view_after os) o.
Proof. unfold view_after, apply_ops. now rewrite fold_left_app. Qed.

(** C2, as stated, fails: with the view sorted on the string column, two
    entries with the same text are returned next to each other in the
    order of the backing sequence, the one at address 0x20 before the one
    at address 0x10; [lessThan] ties them and nothing orders them by
    address. *)
Lemma equal_strings_are_not_ordered_by_address :
  fst (row_at 0 (view_after [SetSort StringsModel.STRING AscendingOrder;
                             Replace [entry_a20; entry_a10]]))
  = Returned (VStringDescription entry_a20)
  /\ fst (row_at 1 (view_after [SetSort StringsModel.STRING AscendingOrder;
                                Replace [entry_a20; entry_a10]]))
     = Returned (VStringDescription entry_a10)
  /\ StringsSortFilterProxyModel.lessThan [entry_a20; entry_a10]
       (StringsModel.index [entry_a20; entry_a10] 0 StringsModel.STRING)
       (StringsModel.index [entry_a20; entry_a10] 1 StringsModel.STRING) = false
  /\ StringsSortFilterProxyModel.lessThan [entry_a20; entry_a10]
       (StringsModel.index [entry_a20; entry_a10] 1 StringsModel.STRING)
       (StringsModel.index [entry_a20; entry_a10] 0 StringsModel.STRING) = false
  /\ ~ (vaddr entry_a20 <= vaddr entry_a10).
Proof. vm_compute. repeat split. congruence. Qed.

(** C2, amended: for every two rows the view returns next to each other,
    under any sort column and order, the active comparator does not put
    the second before the first.  Rows that compare equal under the
    active comparator are not ordered by address: the sort is stable, and
    right after a replace they stand in the order of the backing
    sequence. *)
Theorem view_order (os : list view_op) (i : nat) (a b : Z)
    (Ha : source_rows (view_after os) !! i = Some a)
    (Hb : source_rows (view_after os) !! S i = Some b) :
  Proxy.comparator (strings (view_after os)) (sort_column (view_after os))
    (sort_order (view_after os)) b a = false
  /\ (ends_with_replace os ->
      tied (Proxy.comparator (strings (view_after os)) (sort_column (view_after os))
              (sort_order (view_after os))) a b = true ->
      a < b).
Proof.
  pose proof (widget_inv_view_after os) as Hw.
  assert (Hra : 0 <= a < count (strings (view_after os))).
  { apply (inv_in_range _ Hw), list_elem_of_In, list_elem_of_lookup. eauto. }
  assert (Hrb : 0 <= b < count (strings (view_after os))).
  { apply (inv_in_range _ Hw), list_elem_of_In, list_elem_of_lookup. eauto. }
  split.
  - rewrite comparator_entry by assumption.
    exact (Sorted_adjacent _ _ (inv_sorted _ Hw) i a b Ha Hb).
  - intros (os' & new_strings & ->) Ht.
    unfold tied in Ht. rewrite !comparator_entry in Ht by assumption.
    pose proof (before_adjacent _ _ _ _ Ha Hb) as Hbefore.
    rewrite view_after_snoc in Hbefore, Ht. cbn in Hbefore, Ht.
    eapply create_mapping_ties; eassumption.
Qed.

Lemma view_order_witness :
  Proxy.comparator
    (strings (view_after [SetSort StringsModel.STRING AscendingOrder;
                          Replace [entry_a20; entry_a10; entry_B30]]))
    (sort_column (view_after [SetSort StringsModel.STRING AscendingOrder;
                              Replace [entry_a20; entry_a10; entry_B30]]))
    (sort_order (view_after [SetSort StringsModel.STRING AscendingOrder;
                             Replace [entry_a20; entry_a10; entry_B30]])) 1 0 = false
  /\ (ends_with_replace [SetSort StringsModel.STRING AscendingOrder;
                         Replace [entry_a20; entry_a10; entry_B30]] ->
      tied (Proxy.comparator
              (strings (view_after [SetSort StringsModel.STRING AscendingOrder;
                                    Replace [entry_a20; entry_a10; entry_B30]]))
              (sort_column (view_after [SetSort StringsModel.STRING AscendingOrder;
                                        Replace [entry_a20; entry_a10; entry_B30]]))
              (sort_order (view_after [SetSort StringsModel.STRING AscendingOrder;
                                       Replace [entry_a20; entry_a10; entry_B30]])))
        0 1 = true ->
      0 < 1).
Proof.
  apply (view_order [SetSort StringsModel.STRING AscendingOrder;
                     Replace [entry_a20; entry_a10; entry_B30]] 1%nat 0 1);
    reflexivity.
Defined.

(** ** Refreshing: C1, C5 *)

Lemma live_finish_tracked t r W :
  running W = [(t, r)] -> finish t W = mkWorld (widget W) [] (posted W ++ [(t, r)]) (next_task W).
Proof.
  intros E. unfold finish. rewrite E. cbn. unfold is_task. cbn.
  now rewrite Nat.eqb_refl.
Qed.

Lemma finish_idle t W : running W = [] -> finish t W = W.
Proof. intros E. unfold finish. now rewrite E. Qed.

Lemma refreshStrings_idle produce W :
  task (widget W) = None ->
  refreshStrings produce W
  = mkWorld (set_task (Some (next_task W)) (widget W))
      (running W ++ [(next_task W, produce)]) (posted W) (S (next_task W)).
Proof. intros H. unfold refreshStrings. now rewrite H. Qed.

Lemma refreshStrings_tracked produce W t r :
  task (widget W) = Some t -> running W = [(t, r)] ->
  refreshStrings produce W
  = mkWorld (set_task (Some (next_task W)) (widget W))
      [(next_task W, produce)] (posted W ++ [(t, r)]) (S (next_task W)).
Proof.
  intros H E. unfold refreshStrings, wait. rewrite H.
  now rewrite (live_finish_tracked t r) by exact E.
Qed.

Lemma single_flight_finish t W : single_flight W -> single_flight (finish t W).
Proof.
  intros [E | (t' & E & Ht)]; unfold live in E.
  - apply map_eq_nil in E. rewrite finish_idle by exact E.
    left. unfold live. now rewrite E.
  - destruct (running W) as [|[t0 r] [|? ?]] eqn:Er; try discriminate.
    cbn in E. injection E as ->.
    unfold finish. rewrite Er. cbn [find].
    destruct (is_task t (t', r)) eqn:Et.
    + left. unfold live. cbn [running List.filter]. now rewrite Et.
    + right. exists t'. unfold live. rewrite Er. auto.
Qed.

Lemma single_flight_abort t W : single_flight W -> single_flight (abort t W).
Proof.
  intros [E | (t' & E & Ht)]; unfold live in E.
  - apply map_eq_nil in E. left. unfold live, abort. cbn. now rewrite E.
  - destruct (running W) as [|[t0 r] [|? ?]] eqn:Er; try discriminate.
    cbn in E. injection E as ->.
    unfold single_flight, live, abort. cbn [running widget]. rewrite Er.
    cbn [List.filter]. destruct (is_task t (t', r)); cbn; eauto.
Qed.

Lemma single_flight_refreshStrings produce W :
  single_flight W -> single_flight (refreshStrings produce W).
Proof.
  intros H. right. exists (next_task W).
  assert (E : running (match task (widget W) with Some t => wait t W | None => W end) = []
              /\ next_task (match task (widget W) with Some t => wait t W | None => W end)
                 = next_task W).
  { destruct H as [E | (t & E & Ht)]; unfold live in E.
    - apply map_eq_nil in E.
      destruct (task (widget W)); unfold wait; rewrite ?finish_idle by exact E; auto.
    - destruct (running W) as [|[t0 r] [|? ?]] eqn:Er; try discriminate.
      cbn in E. injection E as ->. rewrite Ht. unfold wait.
      rewrite (live_finish_tracked t r) by exact Er. auto. }
  destruct E as [E1 E2]. unfold refreshStrings, live. cbn. rewrite E1, E2. auto.
Qed.

(** Every event keeps single flight, except the delivery of a result while
    a task is live. *)
Lemma single_flight_step W e :
  single_flight W -> (e = Deliver -> live W = []) -> single_flight (step W e).
Proof.
  intros H Hd. destruct e; cbn [step].
  - now apply single_flight_refreshStrings.
  - now apply single_flight_finish.
  - now apply single_flight_abort.
  - left. specialize (Hd eq_refl). unfold deliver.
    destruct (posted W) as [|[t r] rest]; exact Hd.
  - exact H.
  - exact H.
Qed.

Lemma step_keeps_store W e :
  e <> Deliver ->
  strings (widget (step W e)) = strings (widget W)
  /\ resets (widget (step W e)) = resets (widget W).
Proof.
  intros He. destruct e; cbn [step]; try contradiction; try (split; reflexivity).
  - unfold refreshStrings. cbn.
    destruct (task (widget W)); [|auto].
    unfold wait, finish. destruct (find _ _); auto.
  - unfold finish. destruct (find _ _); auto.
Qed.

Lemma run_keeps_store es :
  forall W, no_delivery es = true ->
            strings (widget (run es W)) = strings (widget W)
            /\ resets (widget (run es W)) = resets (widget W).
Proof.
  induction es as [|e es IH]; intros W H; [auto|].
  cbn in H. apply andb_true_iff in H as [He H].
  cbn [run fold_left]. fold (run es (step W e)).
  destruct (IH (step W e) H) as [-> ->].
  apply step_keeps_store. intros ->. discriminate.
Qed.

(** C1, as stated, fails: after two refreshes in a row the result of the
    first, superseded task is handled like any other: it is installed in
    the store while the second task is still live, so the two refreshes
    make two replacements, not one; the handler also clears the handle of
    the second task, after which a third refresh launches a task without
    waiting and two tasks are live at once. *)
Lemma superseded_result_is_installed :
  strings (widget (run [RefreshAll [entry_a20]; RefreshAll [entry_a10]; Deliver] World_new))
  = [entry_a20]
  /\ live (run [RefreshAll [entry_a20]; RefreshAll [entry_a10]; Deliver] World_new)
     = [1%nat]
  /\ resets (widget (run [RefreshAll [entry_a20]; RefreshAll [entry_a10]; Deliver;
                          TaskFinished 1%nat; Deliver] World_new)) = 2%nat
  /\ live (run [RefreshAll [entry_a20]; RefreshAll [entry_a10]; Deliver;
                RefreshAll [entry_B30]] World_new) = [1%nat; 2%nat].
Proof. vm_compute. repeat split. Qed.

(** C1, amended: a refresh issued while the handle holds a task waits for
    that task to reach a terminal state before it launches the new one,
    so after two refreshes in a row only the second task is live and the
    first's result is waiting to be handled; single flight is kept by
    every event except the handling of a result while a task is live.
    The completion handler installs every result it is given and clears
    the handle: when both results are handled, two replacements occur,
    the first with the first request's result, the second with the second
    request's result, which is the one that remains. *)
Theorem refresh_twice (W : World) (first second : QList StringDescription) :
  (task (widget W) = None -> running W = [] -> posted W = [] ->
   live (run [RefreshAll first; RefreshAll second] W) = [S (next_task W)]
   /\ task (widget (run [RefreshAll first; RefreshAll second] W)) = Some (S (next_task W))
   /\ posted (run [RefreshAll first; RefreshAll second] W) = [(next_task W, first)]
   /\ strings (widget (run [RefreshAll first; RefreshAll second] W)) = strings (widget W)
   /\ resets (widget (run [RefreshAll first; RefreshAll second] W)) = resets (widget W)
   /\ strings (widget (run [RefreshAll first; RefreshAll second; Deliver] W)) = first
   /\ resets (widget (run [RefreshAll first; RefreshAll second; Deliver] W))
      = S (resets (widget W))
   /\ strings (widget (run [RefreshAll first; RefreshAll second; Deliver;
                            TaskFinished (S (next_task W)); Deliver] W)) = second
   /\ resets (widget (run [RefreshAll first; RefreshAll second; Deliver;
                           TaskFinished (S (next_task W)); Deliver] W))
      = S (S (resets (widget W))))
  /\ (forall e, single_flight W -> (e = Deliver -> live W = []) ->
                single_flight (step W e))
  /\ (forall t, task (widget W) = Some t -> running W = [(t, first)] ->
                live (refreshStrings second W) = [next_task W]
                /\ posted (refreshStrings second W) = posted W ++ [(t, first)])
  /\ strings (stringSearchFinished first (widget W)) = first
  /\ task (stringSearchFinished first (widget W)) = None.
Proof.
  split; [|split; [intros e; apply single_flight_step|split; [|split; reflexivity]]].
  2: { intros t Ht Hr. now rewrite (refreshStrings_tracked second W t first). }
  intros Hidle Hquiet Hnone.
  destruct W as [w r p n]. cbn in Hidle, Hquiet, Hnone. subst r p.
  cbn [next_task widget].
  assert (E2 : run [RefreshAll first; RefreshAll second] (mkWorld w [] [] n)
               = mkWorld (set_task (Some (S n)) w) [(S n, second)] [(n, first)] (S (S n))).
  { unfold run. cbn [fold_left step].
    rewrite (refreshStrings_idle first) by exact Hidle. cbn [widget running posted next_task].
    rewrite (refreshStrings_tracked second _ n first) by reflexivity.
    reflexivity. }
  assert (E3 : run [RefreshAll first; RefreshAll second; Deliver] (mkWorld w [] [] n)
               = mkWorld (stringSearchFinished first (set_task (Some (S n)) w))
                   [(S n, second)] [] (S (S n))).
  { change (run [RefreshAll first; RefreshAll second; Deliver] (mkWorld w [] [] n))
      with (deliver (run [RefreshAll first; RefreshAll second] (mkWorld w [] [] n))).
    now rewrite E2. }
  assert (E5 : run [RefreshAll first; RefreshAll second; Deliver; TaskFinished (S n); Deliver]
                 (mkWorld w [] [] n)
               = mkWorld (stringSearchFinished second
                            (stringSearchFinished first (set_task (Some (S n)) w)))
                   [] [] (S (S n))).
  { change (run [RefreshAll first; RefreshAll second; Deliver; TaskFinished (S n); Deliver]
              (mkWorld w [] [] n))
      with (deliver (finish (S n)
                       (run [RefreshAll first; RefreshAll second; Deliver]
                          (mkWorld w [] [] n)))).
    rewrite E3, (live_finish_tracked (S n) second) by reflexivity. reflexivity. }
  rewrite E2, E3, E5. unfold live. cbn.
  repeat split; reflexivity.
Qed.

Lemma refresh_twice_witness :
  live (run [RefreshAll [entry_abc]; RefreshAll [entry_xyz]] World_new)
  = [S (next_task World_new)]
  /\ task (widget (run [RefreshAll [entry_abc]; RefreshAll [entry_xyz]] World_new))
     = Some (S (next_task World_new))
  /\ posted (run [RefreshAll [entry_abc]; RefreshAll [entry_xyz]] World_new)
     = [(next_task World_new, [entry_abc])]
  /\ strings (widget (run [RefreshAll [entry_abc]; RefreshAll [entry_xyz]] World_new))
     = strings (widget World_new)
  /\ resets (widget (run [RefreshAll [entry_abc]; RefreshAll [entry_xyz]] World_new))
     = resets (widget World_new)
  /\ strings (widget (run [RefreshAll [entry_abc]; RefreshAll [entry_xyz]; Deliver] World_new))
     = [entry_abc]
  /\ resets (widget (run [RefreshAll [entry_abc]; RefreshAll [entry_xyz]; Deliver] World_new))
     = S (resets (widget World_new))
  /\ strings (widget (run [RefreshAll [entry_abc]; RefreshAll [entry_xyz]; Deliver;
                           TaskFinished (S (next_task World_new)); Deliver] World_new))
     = [entry_xyz]
  /\ resets (widget (run [RefreshAll [entry_abc]; RefreshAll [entry_xyz]; Deliver;
                          TaskFinished (S (next_task World_new)); Deliver] World_new))
     = S (S (resets (widget World_new))).
Proof.
  apply (proj1 (refresh_twice World_new [entry_abc] [entry_xyz])); reflexivity.
Defined.

(** C5, as stated, fails: when the task of a refresh ends without a
    result the widget does not go back to idle: no slot runs, and the
    handle still holds the task that is over. *)
Lemma failed_refresh_keeps_the_handle :
  live (run [RefreshAll [entry_a20]; TaskAborted 0%nat] World_new) = []
  /\ task (widget (run [RefreshAll [entry_a20]; TaskAborted 0%nat] World_new)) = Some 0%nat
  /\ task (widget (run [RefreshAll [entry_a20]; TaskAborted 0%nat] World_new)) <> None
  /\ posted (run [RefreshAll [entry_a20]; TaskAborted 0%nat] World_new) = [].
Proof. vm_compute. repeat split. congruence. Qed.

(** C5, amended: when a task ends without a result, nothing of the widget
    runs: the store keeps its dataset and no replacement is made, the
    footer keeps its count, the handle keeps the task (the widget is not
    back to idle) and nothing is posted to the widget, so no failure is
    reported; the next refresh finds the task over and launches a new
    one.  More generally the store only changes when a result is handled:
    over any events without a delivery the dataset and the number of
    replacements stay what they were. *)
Theorem aborted_task_leaves_widget (W : World) (t : TaskId)
    (produce : QList StringDescription) :
  widget (step W (TaskAborted t)) = widget W
  /\ posted (step W (TaskAborted t)) = posted W
  /\ ~ In t (live (step W (TaskAborted t)))
  /\ task (widget (step (step W (TaskAborted t)) (RefreshAll produce)))
     = Some (next_task W)
  /\ (forall es, no_delivery es = true ->
                 strings (widget (run es W)) = strings (widget W)
                 /\ resets (widget (run es W)) = resets (widget W)).
Proof.
  split; [reflexivity|]. split; [reflexivity|]. split; [|split].
  - cbn. unfold live. rewrite in_map_iff. intros ([t' r] & E & H).
    cbn in E. subst t'. apply filter_In in H as [_ H].
    unfold is_task in H. cbn in H. now rewrite Nat.eqb_refl in H.
  - cbn. unfold refreshStrings. cbn.
    destruct (task (widget W)); [|reflexivity].
    unfold wait, finish. destruct (find _ _); reflexivity.
  - intros es Hes. now apply run_keeps_store.
Qed.

Lemma aborted_task_leaves_widget_witness :
  strings (widget (run [TaskAborted 0%nat; RefreshAll [entry_xyz]; TaskAborted 1%nat]
                     (step World_new (RefreshAll [entry_abc]))))
  = strings (widget (step World_new (RefreshAll [entry_abc])))
  /\ resets (widget (run [TaskAborted 0%nat; RefreshAll [entry_xyz]; TaskAborted 1%nat]
                       (step World_new (RefreshAll [entry_abc]))))
     = resets (widget (step World_new (RefreshAll [entry_abc]))).
Proof.
  apply (proj2 (proj2 (proj2 (proj2
           (aborted_task_leaves_widget (step World_new (RefreshAll [entry_abc]))
              0%nat [entry_xyz]))))
           [TaskAborted 0%nat; RefreshAll [entry_xyz]; TaskAborted 1%nat]).
  reflexivity.
Defined.

(** * Further properties of the model, the proxy and the slots *)

(** ** Headers and columns *)

Lemma known_column_range c :
  known_column c = true <-> 0 <= c < StringsModel.columnCount.
Proof.
  unfold known_column, StringsModel.columnCount, StringsModel.COUNT,
    StringsModel.OFFSET, StringsModel.STRING, StringsModel.TYPE,
    StringsModel.LENGTH, StringsModel.SIZE.
  rewrite !orb_true_iff, !Z.eqb_eq. lia.
Qed.

Lemma headerData_known section o :
  headerData section o DisplayRole <> Invalid <-> known_column section = true.
Proof.
  unfold headerData, known_column. cbn [Z.eqb DisplayRole].
  destruct (section =? StringsModel.OFFSET); [cbn; split; [reflexivity|discriminate]|].
  destruct (section =? StringsModel.STRING); [cbn; split; [reflexivity|discriminate]|].
  destruct (section =? StringsModel.TYPE); [cbn; split; [reflexivity|discriminate]|].
  destruct (section =? StringsModel.LENGTH); [cbn; split; [reflexivity|discriminate]|].
  destruct (section =? StringsModel.SIZE); [cbn; split; [reflexivity|discriminate]|].
  cbn. split; [congruence | discriminate].
Qed.

Lemma data_display_known strings r c m :
  0 <= r < count strings ->
  StringsModel.data strings (mkIndex r c m) DisplayRole <> Returned Invalid
  <-> known_column c = true.
Proof.
  intros Hr. unfold StringsModel.data. cbn [row column].
  destruct (Z.geb_spec r (count strings)); [lia|].
  destruct (at_in_range strings r Hr) as [str ->].
  cbn [Z.eqb DisplayRole]. unfold known_column.
  destruct (c =? StringsModel.OFFSET); [cbn; split; [reflexivity|discriminate]|].
  destruct (c =? StringsModel.STRING); [cbn; split; [reflexivity|discriminate]|].
  destruct (c =? StringsModel.TYPE); [cbn; split; [reflexivity|discriminate]|].
  destruct (c =? StringsModel.LENGTH); [cbn; split; [reflexivity|discriminate]|].
  destruct (c =? StringsModel.SIZE); [cbn; split; [reflexivity|discriminate]|].
  cbn. split; [congruence | discriminate].
Qed.

(** The headers, the column count and the display data agree on the
    columns: under the display role a section has a header exactly when
    it is one of the [columnCount()] columns, and a row of the sequence
    has display data in a column exactly when that column has a header;
    under any other role there is no header. *)
Theorem header_and_display_columns (strings : QList StringDescription)
    (section r role : Z) (o : Orientation) (m : bool)
    (Hrow : 0 <= r < StringsModel.rowCount strings) :
  (headerData section o DisplayRole <> Invalid
   <-> 0 <= section < StringsModel.columnCount)
  /\ (StringsModel.data strings (mkIndex r section m) DisplayRole <> Returned Invalid
      <-> headerData section o DisplayRole <> Invalid)
  /\ (role <> DisplayRole -> headerData section o role = Invalid).
Proof.
  split; [|split].
  - rewrite headerData_known. apply known_column_range.
  - rewrite headerData_known. now apply data_display_known.
  - intros H. unfold headerData. apply Z.eqb_neq in H. now rewrite H.
Qed.

Lemma header_and_display_columns_witness :
  (headerData 4 Horizontal DisplayRole <> Invalid
   <-> 0 <= 4 < StringsModel.columnCount)
  /\ (StringsModel.data [entry_a20] (mkIndex 0 4 true) DisplayRole <> Returned Invalid
      <-> headerData 4 Horizontal DisplayRole <> Invalid)
  /\ (UserRole <> DisplayRole -> headerData 4 Horizontal UserRole = Invalid).
Proof.
  apply (header_and_display_columns [entry_a20] 4 0 UserRole Horizontal true).
  vm_compute. split; congruence.
Defined.

(** ** The comparator as an ordering *)

Lemma entry_lessThan_trans col a b c :
  entry_lessThan col a b = true -> entry_lessThan col b c = true ->
  entry_lessThan col a c = true.
Proof.
  intros Hab Hbc. destruct (entry_lessThan col a c) eqn:E; [reflexivity|].
  pose proof (entry_lessThan_asym _ _ _ Hbc) as Hcb.
  rewrite (entry_lessThan_negtrans _ _ _ _ E Hcb) in Hab. discriminate.
Qed.

(** On indexes of one column [lessThan] is a strict weak ordering, which
    is what the stable sort asks of its comparator: it is irreflexive,
    asymmetric and transitive, and being unordered is transitive too.
    Only the column of the left index is read, so the third index may be
    of any column. *)
Theorem lessThan_strict_weak_order (strings : QList StringDescription)
    (a b c : QModelIndex)
    (Hab : column a = column b) :
  StringsSortFilterProxyModel.lessThan strings a a = false
  /\ (StringsSortFilterProxyModel.lessThan strings a b = true ->
      StringsSortFilterProxyModel.lessThan strings b a = false)
  /\ (StringsSortFilterProxyModel.lessThan strings a b = true ->
      StringsSortFilterProxyModel.lessThan strings b c = true ->
      StringsSortFilterProxyModel.lessThan strings a c = true)
  /\ (StringsSortFilterProxyModel.lessThan strings a b = false ->
      StringsSortFilterProxyModel.lessThan strings b c = false ->
      StringsSortFilterProxyModel.lessThan strings a c = false).
Proof.
  rewrite !lessThan_entry, <- Hab.
  split; [apply entry_lessThan_irrefl|].
  split; [apply entry_lessThan_asym|].
  split; [apply entry_lessThan_trans | apply entry_lessThan_negtrans].
Qed.

Lemma lessThan_strict_weak_order_witness :
  StringsSortFilterProxyModel.lessThan [entry_a20; entry_a10; entry_B30]
    (mkIndex 0 1 true) (mkIndex 0 1 true) = false
  /\ (StringsSortFilterProxyModel.lessThan [entry_a20; entry_a10; entry_B30]
        (mkIndex 0 1 true) (mkIndex 1 1 true) = true ->
      StringsSortFilterProxyModel.lessThan [entry_a20; entry_a10; entry_B30]
        (mkIndex 1 1 true) (mkIndex 0 1 true) = false)
  /\ (StringsSortFilterProxyModel.lessThan [entry_a20; entry_a10; entry_B30]
        (mkIndex 0 1 true) (mkIndex 1 1 true) = true ->
      StringsSortFilterProxyModel.lessThan [entry_a20; entry_a10; entry_B30]
        (mkIndex 1 1 true) (mkIndex 2 1 true) = true ->
      StringsSortFilterProxyModel.lessThan [entry_a20; entry_a10; entry_B30]
        (mkIndex 0 1 true) (mkIndex 2 1 true) = true)
  /\ (StringsSortFilterProxyModel.lessThan [entry_a20; entry_a10; entry_B30]
        (mkIndex 0 1 true) (mkIndex 1 1 true) = false ->
      StringsSortFilterProxyModel.lessThan [entry_a20; entry_a10; entry_B30]
        (mkIndex 1 1 true) (mkIndex 2 1 true) = false ->
      StringsSortFilterProxyModel.lessThan [entry_a20; entry_a10; entry_B30]
        (mkIndex 0 1 true) (mkIndex 2 1 true) = false).
Proof.
  apply (lessThan_strict_weak_order [entry_a20; entry_a10; entry_B30]
           (mkIndex 0 1 true) (mkIndex 1 1 true) (mkIndex 2 1 true));
    reflexivity.
Defined.

(** ** What the view shows *)

Lemma increasing_NoDup (l : list Z) : StronglySorted Z.lt l -> List.NoDup l.
Proof.
  induction 1 as [|x l Hs IH Hall]; constructor; [|exact IH].
  intros Hin. rewrite Forall_forall in Hall.
  apply list_elem_of_In in Hin. specialize (Hall x Hin). lia.
Qed.

Lemma at_In {A} (l : QList A) i x : at_ l i = Returned x -> In x l.
Proof.
  intros H. apply at_Returned in H as [_ H].
  apply list_elem_of_In, list_elem_of_lookup. eauto.
Qed.

Lemma In_at {A} (l : QList A) x : In x l -> exists i, at_ l i = Returned x.
Proof.
  intros H. apply list_elem_of_In, list_elem_of_lookup in H as [n H].
  exists (Z.of_nat n). apply at_Returned. split; [lia|].
  rewrite Nat2Z.id. exact H.
Qed.

Lemma row_at_entry w i e :
  widget_inv w ->
  fst (row_at i w) = Returned (VStringDescription e) ->
  exists r, at_ (source_rows w) i = Returned r /\ e = entry_of (strings w) r.
Proof.
  intros Hw H.
  destruct (Z.leb_spec 0 i) as [H0|H0];
    [destruct (Z.ltb_spec i (proxy_rowCount w)) as [H1|H1]|].
  - destruct (row_at_inside w i Hw (conj H0 H1)) as (r & Hr & _ & E).
    rewrite E in H. cbn in H. injection H as <-. eauto.
  - rewrite row_at_outside in H by lia. discriminate.
  - rewrite row_at_outside in H by lia. discriminate.
Qed.

(** The view shows exactly the stored entries its filter accepts, each
    source row once: every entry a row lookup returns is accepted by the
    filter, every stored entry the filter accepts is returned at some
    row, and no source row is mapped twice. *)
Theorem view_shows_accepted_entries (os : list view_op) :
  (forall i e,
     fst (row_at i (view_after os)) = Returned (VStringDescription e) ->
     contains (string e) (filterRegExp (view_after os)) = true)
  /\ (forall (n : nat) e,
        strings (view_after os) !! n = Some e ->
        contains (string e) (filterRegExp (view_after os)) = true ->
        exists i, fst (row_at i (view_after os)) = Returned (VStringDescription e))
  /\ List.NoDup (source_rows (view_after os)).
Proof.
  pose proof (widget_inv_view_after os) as Hw.
  pose proof (inv_rows _ Hw) as Hp.
  split; [|split].
  - intros i e H. destruct (row_at_entry _ _ _ Hw H) as (r & Hr & ->).
    apply at_In in Hr. apply (Permutation_in _ Hp) in Hr.
    unfold accepted_rows in Hr. apply filter_In in Hr as [_ Hr]. exact Hr.
  - intros n e Hn He.
    assert (Hin : In (Z.of_nat n) (source_rows (view_after os))).
    { apply (Permutation_in _ (Permutation_sym Hp)). unfold accepted_rows.
      apply filter_In. split.
      - apply source_range_In. apply lookup_lt_Some in Hn. lia.
      - rewrite filterAcceptsRow_entry, (entry_of_lookup _ _ _ Hn). exact He. }
    apply In_at in Hin as [i Hi]. exists i.
    pose proof (at_Returned_lt _ _ _ Hi) as Hrange.
    destruct (row_at_inside _ i Hw Hrange) as (r & Hr & _ & E).
    rewrite E. cbn. rewrite Hi in Hr. injection Hr as <-.
    now rewrite (entry_of_lookup _ _ _ Hn).
  - apply (Permutation_NoDup (Permutation_sym Hp)).
    apply increasing_NoDup, accepted_rows_increasing.
Qed.

(** ** The filter *)

Lemma contains_empty_pattern s cs : contains s (mkRegExp [] cs) = true.
Proof. unfold contains. cbn. now destruct (list_ascii_of_string s). Qed.

Lemma filter_all {A} (f : A -> bool) l :
  (forall x, In x l -> f x = true) -> List.filter f l = l.
Proof.
  induction l as [|x l IH]; intros H; cbn; [reflexivity|].
  rewrite (H x) by (now left). f_equal. apply IH. intros y Hy. apply H. now right.
Qed.

Lemma create_mapping_perm strings rx col o :
  Permutation (Proxy.create_mapping strings rx col o) (accepted_rows strings rx).
Proof. unfold Proxy.create_mapping, Proxy.sort_source_rows. apply stable_sort_perm. Qed.

Lemma accepted_rows_empty_pattern strings cs :
  accepted_rows strings (mkRegExp [] cs) = source_range (List.length strings).
Proof.
  unfold accepted_rows. apply filter_all. intros r _.
  rewrite filterAcceptsRow_entry. apply contains_empty_pattern.
Qed.

Lemma source_range_length n : List.length (source_range n) = n.
Proof. unfold source_range. now rewrite length_map, length_seq. Qed.

(** With the empty pattern the filter accepts everything: clearing the
    filter shows every stored entry, and while the pattern is empty (as
    the constructor leaves it) a replace shows the whole new dataset; the
    footer is given the same count. *)
Theorem empty_filter_shows_everything (w : StringsWidget)
    (new_strings : QList StringDescription) :
  Permutation (source_rows (setFilterWildcard [] w))
    (source_range (List.length (strings w)))
  /\ proxy_rowCount (setFilterWildcard [] w) = StringsModel.rowCount (strings w)
  /\ itemsNumber (setFilterWildcard [] w) = StringsModel.rowCount (strings w)
  /\ (pattern (filterRegExp w) = [] ->
      Permutation (source_rows (stringSearchFinished new_strings w))
        (source_range (List.length new_strings))
      /\ proxy_rowCount (stringSearchFinished new_strings w)
         = StringsModel.rowCount new_strings
      /\ itemsNumber (stringSearchFinished new_strings w)
         = StringsModel.rowCount new_strings).
Proof.
  assert (P1 : Permutation (source_rows (setFilterWildcard [] w))
                 (source_range (List.length (strings w)))).
  { cbn. rewrite create_mapping_perm. now rewrite accepted_rows_empty_pattern. }
  assert (L1 : count (source_rows (setFilterWildcard [] w)) = count (strings w)).
  { unfold count. now rewrite (Permutation_length P1), source_range_length. }
  split; [exact P1|]. split; [exact L1|]. split; [exact L1|].
  intros Hp.
  assert (P2 : Permutation (source_rows (stringSearchFinished new_strings w))
                 (source_range (List.length new_strings))).
  { cbn. rewrite create_mapping_perm.
    destruct (filterRegExp w) as [p cs]. cbn in Hp. subst p.
    now rewrite accepted_rows_empty_pattern. }
  assert (L2 : count (source_rows (stringSearchFinished new_strings w)) = count new_strings).
  { unfold count. now rewrite (Permutation_length P2), source_range_length. }
  split; [exact P2|]. split; exact L2.
Qed.

Lemma empty_filter_shows_everything_witness :
  Permutation (source_rows (stringSearchFinished [entry_a20; entry_a10] StringsWidget_new))
    (source_range (List.length [entry_a20; entry_a10]))
  /\ proxy_rowCount (stringSearchFinished [entry_a20; entry_a10] StringsWidget_new)
     = StringsModel.rowCount [entry_a20; entry_a10]
  /\ itemsNumber (stringSearchFinished [entry_a20; entry_a10] StringsWidget_new)
     = StringsModel.rowCount [entry_a20; entry_a10].
Proof.
  apply (proj2 (proj2 (proj2
           (empty_filter_shows_everything StringsWidget_new [entry_a20; entry_a10])))).
  reflexivity.
Defined.

Lemma view_shows_accepted_entries_witness :
  exists i,
    fst (row_at i (view_after [Replace [entry_abc; entry_xyz];
                               SetFilter ([WChar "x"])]))
    = Returned (VStringDescription entry_xyz).
Proof.
  apply (proj1 (proj2 (view_shows_accepted_entries
                         [Replace [entry_abc; entry_xyz];
                          SetFilter ([WChar "x"])]))
           1%nat entry_xyz);
    reflexivity.
Defined.

Lemma wmatch_literal (t mid : list ascii) :
  wmatch CaseInsensitive (map WChar t) mid <-> Forall2 same_letter t mid.
Proof.
  revert mid. induction t as [|c t IH]; intros mid; cbn.
  - split.
    + intros H. inversion H. constructor.
    + intros H. inversion H. constructor.
  - split.
    + intros H. inversion H as [|c' a p s Hc Hm| | |]; subst.
      constructor; [exact Hc | now apply IH].
    + intros H. inversion H as [|c' a t' mid' Hc Hm]; subst.
      apply wmatch_char; [exact Hc | now apply IH].
Qed.

(** For a pattern of literal characters only the filter is a
    case-insensitive substring test: a stored entry is accepted exactly
    when the characters of the pattern occur in its text, letters
    compared without regard to case. *)
Theorem literal_pattern_is_substring_test (os : list view_op) (t : list ascii)
    (n : nat) (e : StringDescription)
    (Hentry : strings (view_after os) !! n = Some e) :
  StringsSortFilterProxyModel.filterAcceptsRow (strings (view_after os))
    (filterRegExp (setFilterWildcard (map WChar t) (view_after os)))
    (Z.of_nat n) = true
  <-> occurs_ignoring_case t (string e).
Proof.
  rewrite filterAcceptsRow_entry, (entry_of_lookup _ _ _ Hentry), contains_iff.
  cbn [setFilterWildcard filterRegExp caseSensitivity pattern].
  rewrite (inv_case _ (widget_inv_view_after os)).
  unfold matches_substring, occurs_ignoring_case.
  split; intros (pre & mid & post & E & H); exists pre, mid, post;
    (split; [exact E | now apply wmatch_literal]).
Qed.

Lemma literal_pattern_is_substring_test_witness :
  StringsSortFilterProxyModel.filterAcceptsRow
    (strings (view_after [Replace [entry_abc; entry_xyz]]))
    (filterRegExp (setFilterWildcard (map WChar ["Y"%char; "Z"%char])
                     (view_after [Replace [entry_abc; entry_xyz]])))
    (Z.of_nat 1) = true.
Proof.
  apply (literal_pattern_is_substring_test [Replace [entry_abc; entry_xyz]]
           ["Y"%char; "Z"%char] 1%nat entry_xyz eq_refl).
  exists ["x"%char], ["y"%char; "z"%char], []. split; [reflexivity|].
  constructor; [right; left; unfold upper_case_unit; cbn; lia|].
  constructor; [right; left; unfold upper_case_unit; cbn; lia|].
  constructor.
Defined.

(** ** Sorting by a header click *)

Lemma insert_sorted_head {A} (lt : A -> A -> bool) x l :
  HdRel (in_order lt) x l -> insert_sorted lt x l = x :: l.
Proof.
  intros H. destruct l as [|y l]; [reflexivity|].
  inversion H as [|? ? Hxy]; subst. unfold in_order in Hxy. cbn. now rewrite Hxy.
Qed.

Lemma stable_sort_sorted {A} (lt : A -> A -> bool) l :
  Sorted (in_order lt) l -> stable_sort lt l = l.
Proof.
  induction 1 as [|x l Hs IH Hh]; [reflexivity|].
  cbn [stable_sort foldr]. fold (stable_sort lt l).
  rewrite IH. now apply insert_sorted_head.
Qed.

Lemma sortByColumn_rows_entry c o w :
  widget_inv w ->
  source_rows (sortByColumn c o w)
  = stable_sort (entry_comparator (strings w) c o) (source_rows w).
Proof.
  intros Hw. cbn. apply sort_source_rows_entry, inv_in_range, Hw.
Qed.

(** A header click only reorders the view: the rows after the sort are a
    permutation of the rows before it and the row count is unchanged; and
    a second click for the same column and order changes nothing. *)
Theorem sort_reorders_only (os : list view_op) (c : Z) (o : SortOrder) :
  Permutation (source_rows (sortByColumn c o (view_after os)))
    (source_rows (view_after os))
  /\ proxy_rowCount (sortByColumn c o (view_after os)) = proxy_rowCount (view_after os)
  /\ sortByColumn c o (sortByColumn c o (view_after os))
     = sortByColumn c o (view_after os).
Proof.
  pose proof (widget_inv_view_after os) as Hw.
  assert (P : Permutation (source_rows (sortByColumn c o (view_after os)))
                (source_rows (view_after os))).
  { cbn. unfold Proxy.sort_source_rows. apply stable_sort_perm. }
  split; [exact P|]. split.
  - unfold proxy_rowCount, count. now rewrite (Permutation_length P).
  - pose proof (widget_inv_sortByColumn c o _ Hw) as Hw'.
    pose proof (sortByColumn_rows_entry c o _ Hw') as E.
    rewrite stable_sort_sorted in E by apply (inv_sorted _ Hw').
    unfold sortByColumn at 1.
    change (Proxy.sort_source_rows (strings (sortByColumn c o (view_after os))) c o
              (source_rows (sortByColumn c o (view_after os))))
      with (source_rows (sortByColumn c o (sortByColumn c o (view_after os)))).
    rewrite E. reflexivity.
Qed.

Lemma filter_ext_In {A} (f g : A -> bool) l :
  (forall x, In x l -> f x = g x) -> List.filter f l = List.filter g l.
Proof.
  induction l as [|x l IH]; intros H; cbn; [reflexivity|].
  rewrite (H x) by (now left). rewrite IH by (intros y Hy; apply H; now right).
  reflexivity.
Qed.

(** A header click keeps ties in the order of the view before the click:
    the rows that compare equal to a row [x] under the new column and
    order stand after the sort in the order they had before it.  So a
    sort on one column followed by a sort on another orders the view by
    the second column and, within equal values, by the first. *)
Theorem sort_keeps_previous_order_of_ties (os : list view_op) (c : Z) (o : SortOrder)
    (x : Z)
    (Hx : 0 <= x < StringsModel.rowCount (strings (view_after os))) :
  List.filter (tied (Proxy.comparator (strings (view_after os)) c o) x)
    (source_rows (sortByColumn c o (view_after os)))
  = List.filter (tied (Proxy.comparator (strings (view_after os)) c o) x)
      (source_rows (view_after os)).
Proof.
  pose proof (widget_inv_view_after os) as Hw.
  pose proof (inv_in_range _ Hw) as Hr.
  assert (Hext : forall l, (forall y, In y l -> 0 <= y < count (strings (view_after os))) ->
                 List.filter (tied (Proxy.comparator (strings (view_after os)) c o) x) l
                 = List.filter (tied (entry_comparator (strings (view_after os)) c o) x) l).
  { intros l Hl. apply filter_ext_In. intros y Hy. unfold tied.
    rewrite !comparator_entry by (auto || exact Hx). reflexivity. }
  rewrite !Hext.
  - rewrite sortByColumn_rows_entry by exact Hw.
    apply stable_sort_tied, entry_comparator_negtrans.
  - exact Hr.
  - intros y Hy. apply Hr. rewrite sortByColumn_rows_entry in Hy by exact Hw.
    now apply stable_sort_In in Hy.
Qed.

Lemma sort_keeps_previous_order_of_ties_witness :
  List.filter
    (tied (Proxy.comparator
             (strings (view_after [Replace [entry_a20; entry_a10; entry_B30]]))
             StringsModel.STRING AscendingOrder) 0)
    (source_rows (sortByColumn StringsModel.STRING AscendingOrder
                    (view_after [Replace [entry_a20; entry_a10; entry_B30]])))
  = List.filter
      (tied (Proxy.comparator
               (strings (view_after [Replace [entry_a20; entry_a10; entry_B30]]))
               StringsModel.STRING AscendingOrder) 0)
      (source_rows (view_after [Replace [entry_a20; entry_a10; entry_B30]])).
Proof.
  apply (sort_keeps_previous_order_of_ties [Replace [entry_a20; entry_a10; entry_B30]]
           StringsModel.STRING AscendingOrder 0).
  vm_compute. split; congruence.
Defined.

Lemma lookup_map_vaddr (l : QList StringDescription) (n : nat) e :
  l !! n = Some e -> map vaddr l !! n = Some (vaddr e).
Proof.
  revert n. induction l as [|x l IH]; intros n H; [discriminate|].
  destruct n as [|n]; cbn in *; [now injection H as ->|]. now apply IH.
Qed.

Lemma entry_of_in_range strings r :
  0 <= r < count strings -> strings !! Z.to_nat r = Some (entry_of strings r).
Proof.
  intros Hr. destruct (at_in_range strings r Hr) as [e He].
  apply at_Returned in He as [_ He]. rewrite He. f_equal.
  rewrite <- (Z2Nat.id r) by lia. symmetry. now apply entry_of_lookup.
Qed.

(** When the addresses of the stored entries are pairwise distinct and
    the view is sorted by address in ascending order, the addresses
    strictly increase from each row of the view to the next. *)
Theorem distinct_addresses_strictly_increase (os : list view_op) (i : nat) (a b : Z)
    (Hcolumn : sort_column (view_after os) = StringsModel.OFFSET)
    (Horder : sort_order (view_after os) = AscendingOrder)
    (Hdistinct : List.NoDup (map vaddr (strings (view_after os))))
    (Ha : source_rows (view_after os) !! i = Some a)
    (Hb : source_rows (view_after os) !! S i = Some b) :
  vaddr (entry_of (strings (view_after os)) a)
  < vaddr (entry_of (strings (view_after os)) b).
Proof.
  pose proof (widget_inv_view_after os) as Hw.
  assert (Hra : 0 <= a < count (strings (view_after os))).
  { apply (inv_in_range _ Hw), list_elem_of_In, list_elem_of_lookup. eauto. }
  assert (Hrb : 0 <= b < count (strings (view_after os))).
  { apply (inv_in_range _ Hw), list_elem_of_In, list_elem_of_lookup. eauto. }
  pose proof (Sorted_adjacent _ _ (inv_sorted _ Hw) i a b Ha Hb) as Hs.
  unfold in_order in Hs. rewrite Hcolumn, Horder in Hs.
  cbn in Hs. apply Z.ltb_ge in Hs.
  assert (Hne : a <> b).
  { intros ->.
    assert (Hnd : List.NoDup (source_rows (view_after os))).
    { apply (Permutation_NoDup (Permutation_sym (inv_rows _ Hw))).
      apply increasing_NoDup, accepted_rows_increasing. }
    apply NoDup_ListNoDup in Hnd.
    pose proof (NoDup_lookup _ _ _ _ Hnd Ha Hb). lia. }
  assert (Hva : vaddr (entry_of (strings (view_after os)) a)
                <> vaddr (entry_of (strings (view_after os)) b)).
  { intros E. apply Hne.
    pose proof (lookup_map_vaddr _ _ _ (entry_of_in_range _ _ Hra)) as La.
    pose proof (lookup_map_vaddr _ _ _ (entry_of_in_range _ _ Hrb)) as Lb.
    rewrite E in La. apply NoDup_ListNoDup in Hdistinct.
    pose proof (NoDup_lookup _ _ _ _ Hdistinct La Lb). lia. }
  lia.
Qed.

Lemma distinct_addresses_strictly_increase_witness :
  vaddr (entry_of (strings (view_after [Replace [entry_a20; entry_a10; entry_B30]])) 1)
  < vaddr (entry_of (strings (view_after [Replace [entry_a20; entry_a10; entry_B30]])) 0).
Proof.
  apply (distinct_addresses_strictly_increase
           [Replace [entry_a20; entry_a10; entry_B30]] 0%nat 1 0);
    try reflexivity.
  repeat constructor; cbn; intuition discriminate.
Defined.

(** ** The slots that read the current row *)

Lemma proxy_index_valid w i c :
  0 <= i < proxy_rowCount w -> 0 <= c < StringsModel.columnCount ->
  proxy_index w i c = mkIndex i c true.
Proof.
  intros Hi Hc. unfold proxy_index.
  destruct (Z.leb_spec 0 i); [|lia].
  destruct (Z.ltb_spec i (proxy_rowCount w)); [|lia].
  destruct (Z.leb_spec 0 c); [|lia].
  destruct (Z.ltb_spec c StringsModel.columnCount); [|lia]. reflexivity.
Qed.

Lemma proxy_index_invalid w i c :
  ~ (0 <= i < proxy_rowCount w /\ 0 <= c < StringsModel.columnCount) ->
  proxy_index w i c = QModelIndex_invalid.
Proof.
  intros H. unfold proxy_index.
  destruct (Z.leb_spec 0 i); [|reflexivity].
  destruct (Z.ltb_spec i (proxy_rowCount w)); [|reflexivity].
  destruct (Z.leb_spec 0 c); [|reflexivity].
  destruct (Z.ltb_spec c StringsModel.columnCount); [lia|reflexivity].
Qed.

Lemma isValid_mkIndex r c : 0 <= r -> 0 <= c -> isValid (mkIndex r c true) = true.
Proof.
  intros Hr Hc. unfold isValid. cbn.
  destruct (Z.leb_spec 0 r); [|lia]. destruct (Z.leb_spec 0 c); [|lia]. reflexivity.
Qed.

(** Through a valid index of the proxy a lookup is the model's lookup at
    the source row the view maps the row to, in the same column. *)
Lemma proxy_lookup w i c :
  widget_inv w ->
  0 <= i < proxy_rowCount w -> 0 <= c < StringsModel.columnCount ->
  exists r e,
    at_ (source_rows w) i = Returned r
    /\ at_ (strings w) r = Returned e
    /\ e = entry_of (strings w) r
    /\ forall role,
         proxy_QModelIndex_data w (proxy_index w i c) role
         = StringsModel.data (strings w) (mkIndex r c true) role.
Proof.
  intros Hw Hi Hc.
  destruct (at_in_range (source_rows w) i Hi) as [r Hr].
  pose proof (inv_in_range _ Hw _ (at_In _ _ _ Hr)) as Hrange.
  destruct (at_in_range (strings w) r Hrange) as [e He].
  exists r, e. split; [exact Hr|]. split; [exact He|]. split.
  - apply at_Returned in He as [H0 Hl].
    rewrite <- (Z2Nat.id r) by lia. symmetry. now apply entry_of_lookup.
  - intros role. rewrite proxy_index_valid by assumption.
    unfold proxy_QModelIndex_data. cbn [has_model].
    unfold proxy_data, mapToSource. rewrite isValid_mkIndex by lia.
    cbn [row column]. rewrite Hr, index_in_range by assumption.
    rewrite isValid_mkIndex by lia. reflexivity.
Qed.

Lemma row_at_lookup w i r e :
  widget_inv w -> at_ (source_rows w) i = Returned r -> e = entry_of (strings w) r ->
  fst (row_at i w) = Returned (VStringDescription e).
Proof.
  intros Hw Hr ->.
  destruct (row_at_inside w i Hw (at_Returned_lt _ _ _ Hr)) as (r' & Hr' & _ & E).
  rewrite Hr in Hr'. injection Hr' as <-. now rewrite E.
Qed.

(** Copying from a row of the view puts on the clipboard the text of the
    entry that row shows (copy string) or the rendering of its address
    (copy address), whatever the column of the current index. *)
Theorem copy_takes_the_current_row (os : list view_op) (i c : Z)
    (Hrow : 0 <= i < proxy_rowCount (view_after os))
    (Hcolumn : 0 <= c < StringsModel.columnCount) :
  exists e,
    fst (row_at i (view_after os)) = Returned (VStringDescription e)
    /\ on_actionCopy actionCopy_String (proxy_index (view_after os) i c) (view_after os)
       = Returned (units (string e))
    /\ on_actionCopy actionCopy_Address (proxy_index (view_after os) i c) (view_after os)
       = Returned (units (RAddressString (vaddr e))).
Proof.
  pose proof (widget_inv_view_after os) as Hw.
  destruct (proxy_lookup _ i c Hw Hrow Hcolumn) as (r & e & Hr & He & Ee & _).
  exists e. split; [eapply row_at_lookup; eassumption|].
  pose proof (at_Returned_lt _ _ _ He) as Hrange.
  assert (Hdata : forall c', StringsModel.data (strings (view_after os))
                               (mkIndex r c' true) DisplayRole
                             = (if c' =? 0
                                then Returned (VString (units (RAddressString (vaddr e))))
                                else if c' =? 1 then Returned (VString (units (string e)))
                                else StringsModel.data (strings (view_after os))
                                       (mkIndex r c' true) DisplayRole)).
  { intros c'. unfold StringsModel.data. cbn [row column].
    destruct (Z.geb_spec r (count (strings (view_after os)))); [lia|].
    rewrite He. cbn [Z.eqb DisplayRole]. unfold StringsModel.OFFSET, StringsModel.STRING.
    destruct (c' =? 0); [reflexivity|]. destruct (c' =? 1); reflexivity. }
  rewrite proxy_index_valid by assumption. cbn [row].
  split.
  - destruct (proxy_lookup _ i 1 Hw Hrow) as (r1 & e1 & Hr1 & _ & _ & E1);
      [unfold StringsModel.columnCount, StringsModel.COUNT; lia|].
    rewrite Hr in Hr1. injection Hr1 as <-.
    unfold on_actionCopy. cbn [row]. rewrite E1, Hdata. reflexivity.
  - destruct (proxy_lookup _ i 0 Hw Hrow) as (r0 & e0 & Hr0 & _ & _ & E0);
      [unfold StringsModel.columnCount, StringsModel.COUNT; lia|].
    rewrite Hr in Hr0. injection Hr0 as <-.
    unfold on_actionCopy. cbn [row]. rewrite E0, Hdata. reflexivity.
Qed.

Lemma copy_takes_the_current_row_witness :
  exists e,
    fst (row_at 0 (view_after [Replace [entry_a20; entry_a10]]))
    = Returned (VStringDescription e)
    /\ on_actionCopy actionCopy_String
         (proxy_index (view_after [Replace [entry_a20; entry_a10]]) 0 3)
         (view_after [Replace [entry_a20; entry_a10]])
       = Returned (units (string e))
    /\ on_actionCopy actionCopy_Address
         (proxy_index (view_after [Replace [entry_a20; entry_a10]]) 0 3)
         (view_after [Replace [entry_a20; entry_a10]])
       = Returned (units (RAddressString (vaddr e))).
Proof.
  apply (copy_takes_the_current_row [Replace [entry_a20; entry_a10]] 0 3);
    vm_compute; split; congruence.
Defined.

(** Copying with no row to copy from empties the clipboard: when the
    current index has no row of the view (no current item, or a row past
    the row count) the text set on the clipboard is the empty string, for
    either action. *)
Theorem copy_without_row_sets_empty_text (w : StringsWidget) (sender : QAction)
    (current_item : QModelIndex)
    (Hnone : ~ (0 <= row current_item < proxy_rowCount w)) :
  on_actionCopy sender current_item w = Returned [].
Proof.
  unfold on_actionCopy.
  destruct sender; rewrite ?proxy_index_invalid by lia; reflexivity.
Qed.

Lemma copy_without_row_sets_empty_text_witness :
  on_actionCopy actionCopy_String QModelIndex_invalid
    (view_after [Replace [entry_a20; entry_a10]])
  = Returned [].
Proof.
  apply (copy_without_row_sets_empty_text (view_after [Replace [entry_a20; entry_a10]])
           actionCopy_String QModelIndex_invalid).
  vm_compute. intros [H _]. now apply H.
Defined.

(** A double click on a row of the view seeks to the address of the
    entry that row shows, whichever column was clicked; a double click
    with an invalid index seeks nowhere. *)
Theorem double_click_seeks_the_entry (os : list view_op) (i c : Z) :
  (0 <= i < proxy_rowCount (view_after os) -> 0 <= c < StringsModel.columnCount ->
   exists e,
     fst (row_at i (view_after os)) = Returned (VStringDescription e)
     /\ on_stringsTreeView_doubleClicked (proxy_index (view_after os) i c) (view_after os)
        = Returned (Some (vaddr e)))
  /\ (~ (0 <= i < proxy_rowCount (view_after os) /\ 0 <= c < StringsModel.columnCount) ->
      on_stringsTreeView_doubleClicked (proxy_index (view_after os) i c) (view_after os)
      = Returned None).
Proof.
  pose proof (widget_inv_view_after os) as Hw. split.
  - intros Hi Hc.
    destruct (proxy_lookup _ i c Hw Hi Hc) as (r & e & Hr & He & Ee & E).
    exists e. split; [eapply row_at_lookup; eassumption|].
    unfold on_stringsTreeView_doubleClicked.
    rewrite E, (data_payload _ _ e) by exact He.
    rewrite proxy_index_valid, isValid_mkIndex by (assumption || lia). reflexivity.
  - intros H. now rewrite proxy_index_invalid.
Qed.

Lemma double_click_seeks_the_entry_witness :
  exists e,
    fst (row_at 1 (view_after [Replace [entry_a20; entry_a10]]))
    = Returned (VStringDescription e)
    /\ on_stringsTreeView_doubleClicked
         (proxy_index (view_after [Replace [entry_a20; entry_a10]]) 1 2)
         (view_after [Replace [entry_a20; entry_a10]])
       = Returned (Some (vaddr e)).
Proof.
  apply (proj1 (double_click_seeks_the_entry [Replace [entry_a20; entry_a10]] 1 2));
    vm_compute; split; congruence.
Defined.

(** The cross-references action is not guarded as the double click is:
    on a row of the view it asks for the references of the address of the
    entry that row shows, labelled with the rendering of that address;
    with no current item it asks for the references of address 0. *)
Theorem xrefs_target (os : list view_op) (i c : Z) :
  (0 <= i < proxy_rowCount (view_after os) -> 0 <= c < StringsModel.columnCount ->
   exists e,
     fst (row_at i (view_after os)) = Returned (VStringDescription e)
     /\ on_actionX_refs_triggered (proxy_index (view_after os) i c) (view_after os)
        = Returned (vaddr e, RAddressString (vaddr e), false))
  /\ on_actionX_refs_triggered QModelIndex_invalid (view_after os)
     = Returned (0, RAddressString 0, false)
  /\ on_stringsTreeView_doubleClicked QModelIndex_invalid (view_after os) = Returned None.
Proof.
  pose proof (widget_inv_view_after os) as Hw. split; [|split; reflexivity].
  intros Hi Hc.
  destruct (proxy_lookup _ i c Hw Hi Hc) as (r & e & Hr & He & Ee & E).
  exists e. split; [eapply row_at_lookup; eassumption|].
  unfold on_actionX_refs_triggered.
  rewrite E, (data_payload _ _ e) by exact He. reflexivity.
Qed.

Lemma xrefs_target_witness :
  exists e,
    fst (row_at 1 (view_after [Replace [entry_a20; entry_a10]]))
    = Returned (VStringDescription e)
    /\ on_actionX_refs_triggered
         (proxy_index (view_after [Replace [entry_a20; entry_a10]]) 1 0)
         (view_after [Replace [entry_a20; entry_a10]])
       = Returned (vaddr e, RAddressString (vaddr e), false).
Proof.
  apply (proj1 (xrefs_target [Replace [entry_a20; entry_a10]] 1 0));
    vm_compute; split; congruence.
Defined.

(** ** The footer and a whole refresh *)




(** A whole refresh: when no task is live and no result is waiting, a
    refresh launches one task and sets the handle to it, whether or not
    the handle still held a task that is over; once that task has
    completed and its result is handled, the store holds the task's
    dataset, one more reset has been made, the handle is cleared, nothing
    is live or waiting, and the filter and the sort settings are the ones
    from before the refresh. *)
Theorem refresh_cycle (W : World) (produce : QList StringDescription)
    (Hquiet : running W = []) (Hnone : posted W = []) :
  live (refreshStrings produce W) = [next_task W]
  /\ task (widget (refreshStrings produce W)) = Some (next_task W)
  /\ strings (widget (run [RefreshAll produce; TaskFinished (next_task W); Deliver] W))
     = produce
  /\ resets (widget (run [RefreshAll produce; TaskFinished (next_task W); Deliver] W))
     = S (resets (widget W))
  /\ task (widget (run [RefreshAll produce; TaskFinished (next_task W); Deliver] W)) = None
  /\ running (run [RefreshAll produce; TaskFinished (next_task W); Deliver] W) = []
  /\ posted (run [RefreshAll produce; TaskFinished (next_task W); Deliver] W) = []
  /\ filterRegExp (widget (run [RefreshAll produce; TaskFinished (next_task W); Deliver] W))
     = filterRegExp (widget W)
  /\ sort_column (widget (run [RefreshAll produce; TaskFinished (next_task W); Deliver] W))
     = sort_column (widget W)
  /\ sort_order (widget (run [RefreshAll produce; TaskFinished (next_task W); Deliver] W))
     = sort_order (widget W).
Proof.
  destruct W as [w r p n]. cbn in Hquiet, Hnone. subst r p. cbn [next_task widget].
  assert (E1 : refreshStrings produce (mkWorld w [] [] n)
               = mkWorld (set_task (Some n) w) [(n, produce)] [] (S n)).
  { unfold refreshStrings. cbn [widget].
    destruct (task w); [unfold wait; rewrite finish_idle by reflexivity|]; reflexivity. }
  assert (E3 : run [RefreshAll produce; TaskFinished n; Deliver] (mkWorld w [] [] n)
               = mkWorld (stringSearchFinished produce (set_task (Some n) w)) [] [] (S n)).
  { change (run [RefreshAll produce; TaskFinished n; Deliver] (mkWorld w [] [] n))
      with (deliver (finish n (refreshStrings produce (mkWorld w [] [] n)))).
    rewrite E1, (live_finish_tracked n produce) by reflexivity. reflexivity. }
  rewrite E1, E3. unfold live. cbn. repeat split; reflexivity.
Qed.

Lemma refresh_cycle_witness :
  live (refreshStrings [entry_abc] (step (step World_new (RefreshAll [entry_xyz]))
                                      (TaskAborted 0%nat)))
  = [next_task (step (step World_new (RefreshAll [entry_xyz])) (TaskAborted 0%nat))]
  /\ task (widget (refreshStrings [entry_abc]
                     (step (step World_new (RefreshAll [entry_xyz])) (TaskAborted 0%nat))))
     = Some (next_task (step (step World_new (RefreshAll [entry_xyz])) (TaskAborted 0%nat))).
Proof.
  pose proof (refresh_cycle (step (step World_new (RefreshAll [entry_xyz]))
                               (TaskAborted 0%nat))
                [entry_abc] eq_refl eq_refl) as H.
  split; [exact (proj1 H) | exact (proj1 (proj2 H))].
Defined.
